(** * A shallow embedding of [mal.c], an sbrk-based first-fit allocator

    The C program keeps one singly linked list of block headers in the
    memory it obtains from [sbrk]; every header is followed by its payload.
    The embedding keeps the process state of the program in a record:

    - the two globals [head] and [tail] (addresses, [NULL] is [0]);
    - the program break, as the C library tracks it;
    - the header objects of the heap, keyed by their address;
    - the payload bytes, as a function from addresses.

    Headers and payload bytes sit in two stores, and addresses are
    integers: a pointer sum such as [block + size] is not wrapped.  Both
    are exact on the well-formed states ([wf] below), where the blocks lie
    apart from each other below the break, and the break is an address of
    the machine; what a call keeps or changes is therefore stated for
    well-formed states.  [size_t] arithmetic is written with its
    wrap-around modulo [2 ^ w]; the conversion of a [size_t] to the
    [intptr_t] argument of [sbrk] is written out as well.  The width of
    [size_t] and [sizeof(header_t)] are parameters of the development (on
    LP64 they are 64 and 24).

    The operating system enters through one more parameter, [os_refuses],
    which says for a break and a positive increment whether the kernel
    refuses to raise the break.  Lowering the break and querying it never
    fail.

    The global mutex is not modelled: every operation is one critical
    section, and the embedding describes the sequential behaviour of the
    operations. *)

From stdpp Require Import base numbers option list sorting gmap.
From Stdlib Require Import ZArith Lia.
From Stdlib.Strings Require Import Byte.

Open Scope Z_scope.

(** ** Outcomes of running a piece of the program *)

(** [Fault] is an access to a header that does not exist (undefined
    behaviour in C); [OutOfFuel] says that a loop did not end within the
    number of iterations it was given. *)
Inductive result (A : Type) : Type :=
  | Ok (a : A)
  | Fault
  | OutOfFuel.
Arguments Ok {A} a.
Arguments Fault {A}.
Arguments OutOfFuel {A}.

#[global] Instance result_ret : MRet result := λ A a, Ok a.
#[global] Instance result_bind : MBind result := λ A B f m,
  match m with
  | Ok a => f a
  | Fault => Fault
  | OutOfFuel => OutOfFuel
  end.

(** ** The data of the program *)

(** [union header]: the payload size, the free flag and the forward link.
    The flag is only ever written 0 or 1 and read for truth. *)
Record header_t : Type := Header {
  s_size : Z;
  s_is_free : bool;
  s_next : Z
}.

Definition set_is_free (b : bool) (h : header_t) : header_t :=
  Header (s_size h) b (s_next h).

Definition set_next (n : Z) (h : header_t) : header_t :=
  Header (s_size h) (s_is_free h) n.

Record state : Type := State {
  head : Z;
  tail : Z;
  brk : Z;
  hdrs : gmap Z header_t;
  bytes : Z → byte
}.

Definition NULL : Z := 0.

(** [(void* )-1], the value [sbrk] returns when it fails. *)
Definition SBRK_FAILED : Z := -1.

Definition set_head (a : Z) (st : state) : state :=
  State a (tail st) (brk st) (hdrs st) (bytes st).
Definition set_tail (a : Z) (st : state) : state :=
  State (head st) a (brk st) (hdrs st) (bytes st).
Definition set_brk (b : Z) (st : state) : state :=
  State (head st) (tail st) b (hdrs st) (bytes st).
Definition set_hdrs (m : gmap Z header_t) (st : state) : state :=
  State (head st) (tail st) (brk st) m (bytes st).
Definition set_bytes (f : Z → byte) (st : state) : state :=
  State (head st) (tail st) (brk st) (hdrs st) f.

(** Reading the header object at an address. *)
Definition load (st : state) (p : Z) : result header_t :=
  match hdrs st !! p with
  | Some h => Ok h
  | None => Fault
  end.

(** Writing one field of the header object at an address. *)
Definition store (st : state) (p : Z) (f : header_t → header_t) : result state :=
  h ← load st p; Ok (set_hdrs (<[p := f h]> (hdrs st)) st).

(** The state before the first call: no block, the break where the
    kernel put it. *)
Definition initial (base : Z) : state :=
  State NULL NULL base ∅ (λ _, x00).

(** [memset(s, c, n)] and [memcpy(dest, src, n)] on the payload bytes. *)
Definition memset (st : state) (s : Z) (c : byte) (n : Z) : state :=
  set_bytes (λ a, if (s <=? a) && (a <? s + n) then c else bytes st a) st.

(** [memcpy] is undefined when the two areas overlap. *)
Definition overlap (dest src n : Z) : bool :=
  (0 <? n) && (dest <? src + n) && (src <? dest + n).

Definition memcpy (st : state) (dest src n : Z) : result state :=
  if overlap dest src n then Fault
  else Ok (set_bytes
             (λ a, if (dest <=? a) && (a <? dest + n)
                   then bytes st (src + (a - dest)) else bytes st a) st).

(** ** The platform the program is compiled for and runs on *)

(** [word_bits] is the width of [size_t] and [intptr_t] in bits,
    [sizeof_header] is [sizeof(header_t)], and [os_refuses b inc] says that
    the kernel refuses to raise the break [b] by [inc > 0]. *)
Class platform : Type := Platform {
  word_bits : Z;
  sizeof_header : Z;
  os_refuses : Z → Z → bool
}.

Section Allocator.

Context {P : platform}.

Local Abbreviation w := word_bits.
Local Abbreviation hsz := sizeof_header.

(** A value of type [size_t]. *)
Definition wrap (x : Z) : Z := x mod 2 ^ w.

(** A [size_t] passed where an [intptr_t] is expected. *)
Definition to_intptr (x : Z) : Z :=
  if wrap x <? 2 ^ (w - 1) then wrap x else wrap x - 2 ^ w.

Definition refused (st : state) (increment : Z) : bool :=
  (0 <? increment) && os_refuses (brk st) increment.

(** [sbrk(increment)]: the previous break, or [(void* )-1] and no change.
    [sbrk(0)] only reports the break. *)
Definition sbrk (st : state) (increment : Z) : Z * state :=
  if increment =? 0 then (brk st, st)
  else if refused st increment then (SBRK_FAILED, st)
  else (brk st, set_brk (brk st + increment) st).

(** The loop of [get_free_block], started at [curr]. *)
Fixpoint get_free_block_from (fuel : nat) (st : state) (curr size : Z)
  : result Z :=
  match fuel with
  | O => OutOfFuel
  | S n =>
      if curr =? NULL then Ok NULL
      else
        h ← load st curr;
        if s_is_free h && (size <=? s_size h) then Ok curr
        else get_free_block_from n st (s_next h) size
  end.

Definition get_free_block (fuel : nat) (st : state) (size : Z) : result Z :=
  get_free_block_from fuel st (head st) size.

(** The loop of [free] that looks for the block before [tail]. *)
Fixpoint free_unlink (fuel : nat) (st : state) (tmp : Z) : result state :=
  match fuel with
  | O => OutOfFuel
  | S n =>
      if tmp =? NULL then Ok st
      else
        h ← load st tmp;
        st1 ← (if s_next h =? tail st
               then st' ← store st tmp (set_next NULL); Ok (set_tail tmp st')
               else Ok st);
        h1 ← load st1 tmp;
        free_unlink n st1 (s_next h1)
  end.

Definition free (fuel : nat) (st : state) (block : Z) : result state :=
  if block =? NULL then Ok st
  else
    let header := block - hsz in
    let '(programbreak, st0) := sbrk st 0 in
    h ← load st0 header;
    if block + s_size h =? programbreak then
      st1 ← (if head st0 =? tail st0
             then Ok (set_tail NULL (set_head NULL st0))
             else free_unlink fuel st0 (head st0));
      h1 ← load st1 header;
      Ok (snd (sbrk st1 (to_intptr (wrap (wrap (0 - s_size h1) - hsz)))))
    else
      store st0 header (set_is_free true).

Definition malloc (fuel : nat) (st : state) (size : Z) : result (Z * state) :=
  if size =? 0 then Ok (NULL, st)
  else
    header ← get_free_block fuel st size;
    if negb (header =? NULL) then
      st1 ← store st header (set_is_free false);
      Ok (NULL, st1)
    else
      let total_size := wrap (hsz + size) in
      let '(block, st1) := sbrk st (to_intptr total_size) in
      if block =? SBRK_FAILED then Ok (NULL, st1)
      else
        let header := block in
        let st2 := set_hdrs (<[header := Header size false NULL]> (hdrs st1)) st1 in
        let st3 := if head st2 =? NULL then set_head header st2 else st2 in
        st4 ← (if negb (tail st3 =? NULL)
               then store st3 (tail st3) (set_next header)
               else Ok st3);
        Ok (header + hsz, set_tail header st4).

Definition calloc (fuel : nat) (st : state) (num nsize : Z)
  : result (Z * state) :=
  if (num =? 0) || (nsize =? 0) then Ok (NULL, st)
  else
    let size := wrap (num * nsize) in
    if negb (nsize =? size / num) then Ok (NULL, st)
    else
      '(block, st1) ← malloc fuel st size;
      if block =? NULL then Ok (NULL, st1)
      else Ok (block, memset st1 block x00 size).

Definition realloc (fuel : nat) (st : state) (block size : Z)
  : result (Z * state) :=
  if (block =? NULL) || (size =? 0) then malloc fuel st size
  else
    let header := block - hsz in
    h ← load st header;
    if size <=? s_size h then Ok (block, st)
    else
      '(ret, st1) ← malloc fuel st size;
      if negb (ret =? NULL) then
        h1 ← load st1 header;
        st2 ← memcpy st1 ret block (s_size h1);
        st3 ← free fuel st2 block;
        Ok (ret, st3)
      else Ok (ret, st1).

(** The loop of [print_mem_list]: the blocks met from [curr] on, each with
    its address and its header, in the order they are printed. *)
Fixpoint print_mem_list_from (fuel : nat) (st : state) (curr : Z)
  : result (list (Z * header_t)) :=
  match fuel with
  | O => OutOfFuel
  | S n =>
      if curr =? NULL then Ok []
      else
        h ← load st curr;
        rest ← print_mem_list_from n st (s_next h);
        Ok ((curr, h) :: rest)
  end.

Definition print_mem_list (fuel : nat) (st : state)
  : result (list (Z * header_t)) :=
  print_mem_list_from fuel st (head st).

(** ** Calls and sequences of calls *)

Inductive call : Type :=
  | Malloc (size : Z)
  | Calloc (num nsize : Z)
  | Realloc (block size : Z)
  | Free (block : Z).

Definition run_call (fuel : nat) (st : state) (c : call) : result (Z * state) :=
  match c with
  | Malloc size => malloc fuel st size
  | Calloc num nsize => calloc fuel st num nsize
  | Realloc block size => realloc fuel st block size
  | Free block => st' ← free fuel st block; Ok (NULL, st')
  end.

(** Runs the calls in order and collects what they return. *)
Fixpoint run_calls (fuel : nat) (st : state) (cs : list call)
  : result (list Z * state) :=
  match cs with
  | [] => Ok ([], st)
  | c :: cs' =>
      '(r, st1) ← run_call fuel st c;
      '(rs, st2) ← run_calls fuel st1 cs';
      Ok (r :: rs, st2)
  end.

(** ** The block list as a data structure *)

(** [layout st l nxt top]: the headers at the addresses [l] exist, are
    linked in that order with [nxt] after the last one, and every block
    (header and payload) ends where the next one starts or before, the
    last one at [top] or before.  The sizes are those [sbrk] can be asked
    for: [hsz + size] is a positive [intptr_t]. *)
Fixpoint layout (st : state) (l : list Z) (nxt top : Z) : Prop :=
  match l with
  | [] => True
  | a :: l' =>
      0 < a ∧
      ∃ h, hdrs st !! a = Some h ∧
           0 ≤ s_size h ∧ hsz + s_size h < 2 ^ (w - 1) ∧
           s_next h = hd nxt l' ∧
           a + hsz + s_size h ≤ hd top l' ∧
           layout st l' nxt top
  end.

(** The state is well formed, with [l] the addresses of its blocks from
    [head] to [tail]. *)
Record wf (st : state) (l : list Z) : Prop := Wf {
  wf_head : head st = hd NULL l;
  wf_tail : tail st = default NULL (last l);
  wf_brk : 0 < brk st;
  wf_layout : layout st l NULL (brk st)
}.

(** A handle the caller holds: the payload address of a block of the list
    that is in use. *)
Definition handle_of (st : state) (l : list Z) (block : Z) : Prop :=
  (block - hsz) ∈ l ∧
  ∃ h, hdrs st !! (block - hsz) = Some h ∧ s_is_free h = false.

(** A request the break can be raised by: [hsz + size] is a positive
    [intptr_t]. *)
Definition fits (size : Z) : Prop :=
  0 ≤ size ∧ hsz + size < 2 ^ (w - 1).

End Allocator.

(** ** What a caller that keeps to the contract can reach *)

Section Callers.

Context {P : platform}.

Local Abbreviation w := word_bits.
Local Abbreviation hsz := sizeof_header.

(** The handles the caller holds after a call of [realloc]. *)
Definition realloc_live (L : gset Z) (block size r : Z) : gset Z :=
  if (block =? NULL) || (size =? 0) then
    if r =? NULL then L else {[r]} ∪ L
  else if r =? NULL then L
  else {[r]} ∪ (L ∖ {[block]}).

(** A platform with the same [size_t] and the same header, whatever its
    kernel decides. *)
Definition same_abi (P' : platform) : Prop :=
  @word_bits P' = @word_bits P ∧ @sizeof_header P' = @sizeof_header P.

(** [reachable st L]: the state [st] comes from the initial state by calls
    of [malloc], [calloc], [realloc] and [free], and [L] is the set of the
    handles those calls returned and the caller has not given back.  The
    caller passes [realloc] and [free] only [NULL] or a handle it holds,
    and asks only for sizes that fit.  The kernel is free to decide anew
    at every call. *)
Inductive reachable : state → gset Z → Prop :=
  | reach_initial base :
      0 < base → reachable (initial base) ∅
  | reach_malloc P' st L fuel size r st' :
      same_abi P' → reachable st L → fits (P := P) size →
      malloc (P := P') fuel st size = Ok (r, st') →
      reachable st' (if r =? NULL then L else {[r]} ∪ L)
  | reach_calloc P' st L fuel num nsize r st' :
      same_abi P' → reachable st L →
      0 ≤ num < 2 ^ @word_bits P → 0 ≤ nsize < 2 ^ @word_bits P →
      fits (P := P) (wrap (P := P) (num * nsize)) →
      calloc (P := P') fuel st num nsize = Ok (r, st') →
      reachable st' (if r =? NULL then L else {[r]} ∪ L)
  | reach_realloc P' st L fuel block size r st' :
      same_abi P' → reachable st L → block = NULL ∨ block ∈ L →
      fits (P := P) size →
      realloc (P := P') fuel st block size = Ok (r, st') →
      reachable st' (realloc_live L block size r)
  | reach_free P' st L fuel block st' :
      same_abi P' → reachable st L → block = NULL ∨ block ∈ L →
      free (P := P') fuel st block = Ok st' →
      reachable st' (L ∖ {[block]}).

(** The invariant of the reachable states: the block list is well formed
    and every handle the caller holds is the payload of a block of the
    list that is in use. *)
Definition invariant (st : state) (L : gset Z) : Prop :=
  ∃ l, wf st l ∧ ∀ block, block ∈ L → handle_of st l block.

(** [tight st l top]: the blocks at the addresses [l] lie back to back,
    and the last one ends exactly at [top]. *)
Fixpoint tight (st : state) (l : list Z) (top : Z) : Prop :=
  match l with
  | [] => True
  | a :: l' =>
      (∃ h, hdrs st !! a = Some h ∧ a + hsz + s_size h = hd top l') ∧
      tight st l' top
  end.

(** The handle a call gives back to the allocator, if it may. *)
Definition handle_arg (c : call) : option Z :=
  match c with
  | Free block | Realloc block _ => Some block
  | Malloc _ | Calloc _ _ => None
  end.

End Callers.

(** ** Two platforms to run the program on *)

(** LP64 with a kernel that grants every request, *)
Definition lp64 : platform := Platform 64 24 (λ _ _, false).

(** and LP64 with a kernel that has no memory left to give. *)
Definition lp64_exhausted : platform := Platform 64 24 (λ _ _, true).

(** The state a sequence of calls leaves when it starts with the break at
    [base] (the initial state again if the sequence does not run). *)
Definition after {P : platform} (fuel : nat) (cs : list call) (base : Z)
  : state :=
  match run_calls fuel (initial base) cs with
  | Ok (_, st) => st
  | _ => initial base
  end.

(** ** States to run single calls on *)

(** Two blocks in use: 20 bytes at 4096 and 12 bytes at 4140. *)
Definition heap_used : state :=
  after (P := lp64) 8 [Malloc 20; Calloc 3 4] 4096.

(** The same with the first block given back. *)
Definition heap_freed : state :=
  after (P := lp64) 8 [Malloc 20; Calloc 3 4; Free 4120] 4096.

(** Two blocks of 16 bytes in use, at 4096 and at 4136. *)
Definition heap_pair : state :=
  after (P := lp64) 8 [Malloc 16; Malloc 16] 4096.


(** Well-formedness of a concrete state, by evaluation. *)
Ltac wf_by_evaluation :=
  split; [reflexivity | reflexivity | by vm_compute | ];
  repeat (split; [by vm_compute|]; eexists;
          split; [vm_compute; reflexivity|];
          split_and!; [by vm_compute | by vm_compute | reflexivity
                      | by vm_compute | ]);
  exact I.

(** * Properties of the program *)

Section Proofs.

Context {P : platform}.

Local Abbreviation w := word_bits.
Local Abbreviation hsz := sizeof_header.

Implicit Types (st : state) (h : header_t) (l : list Z) (fuel : nat).

(** ** Elementary facts about the state and the monad *)

Lemma bind_Ok {A B} (m : result A) (f : A → result B) (b : B) :
  m ≫= f = Ok b ↔ ∃ a, m = Ok a ∧ f a = Ok b.
Proof.
  destruct m; simpl; split; try (intros [? [? ?]]); try discriminate; eauto.
  congruence.
Qed.

Lemma load_Ok st p h : load st p = Ok h ↔ hdrs st !! p = Some h.
Proof. unfold load. destruct (hdrs st !! p); split; congruence. Qed.

Lemma store_Ok st p f h :
  hdrs st !! p = Some h →
  store st p f = Ok (set_hdrs (<[p := f h]> (hdrs st)) st).
Proof. intros H. unfold store, load. by rewrite H. Qed.

Lemma sbrk_query st : sbrk st 0 = (brk st, st).
Proof. reflexivity. Qed.

(** ** Arithmetic of [size_t] *)

Lemma wrap_small x : 0 ≤ x < 2 ^ w → wrap x = x.
Proof. intros. unfold wrap. by apply Z.mod_small. Qed.

Lemma pow2_half : 0 < w → 2 ^ w = 2 * 2 ^ (w - 1) ∧ 0 < 2 ^ (w - 1).
Proof.
  intros. split; [|apply Z.pow_pos_nonneg; lia].
  replace w with (Z.succ (w - 1)) at 1 by lia.
  rewrite Z.pow_succ_r; lia.
Qed.

(** The increment [malloc] passes to [sbrk], when the request fits. *)
Lemma to_intptr_total size :
  0 < w → 0 ≤ hsz → fits size → to_intptr (wrap (hsz + size)) = hsz + size.
Proof.
  intros Hw Hh [H0 H1]. destruct (pow2_half Hw) as [Hp Hq].
  unfold to_intptr. rewrite (wrap_small (hsz + size)) by lia.
  rewrite wrap_small by lia.
  destruct (Z.ltb_spec (hsz + size) (2 ^ (w - 1))); lia.
Qed.

(** The increment [free] passes to [sbrk] for a block of such a size. *)
Lemma to_intptr_release size :
  0 < w → 0 < hsz → fits size →
  to_intptr (wrap (wrap (0 - size) - hsz)) = - (hsz + size).
Proof.
  intros Hw Hh [H0 H1]. destruct (pow2_half Hw) as [Hp Hq].
  assert (wrap (wrap (0 - size) - hsz) = 2 ^ w - (hsz + size)) as E.
  { unfold wrap. rewrite Zminus_mod_idemp_l.
    replace (0 - size - hsz) with (2 ^ w - (hsz + size) + (-1) * 2 ^ w) by lia.
    rewrite Z.mod_add by lia. apply Z.mod_small. lia. }
  unfold to_intptr. rewrite (wrap_small (wrap _)); rewrite E; [|lia].
  destruct (Z.ltb_spec (2 ^ w - (hsz + size)) (2 ^ (w - 1))); lia.
Qed.

(** The test of [calloc] finds every overflow of the product, *)
Lemma mul_overflow_detected num nsize :
  0 < w → 0 < num → 0 ≤ nsize → 2 ^ w ≤ num * nsize →
  wrap (num * nsize) / num ≠ nsize.
Proof.
  intros Hw Hn Hs Hov. unfold wrap.
  assert (0 < 2 ^ w) as Hp by (apply Z.pow_pos_nonneg; lia).
  pose proof (Z.mod_pos_bound (num * nsize) (2 ^ w) Hp) as Hm.
  assert ((num * nsize) mod 2 ^ w / num < nsize); [|lia].
  apply Z.div_lt_upper_bound; lia.
Qed.

(** and nothing else. *)
Lemma mul_no_overflow num nsize :
  0 < w → 0 < num → 0 ≤ nsize → wrap (num * nsize) / num = nsize →
  wrap (num * nsize) = num * nsize.
Proof.
  intros Hw Hn Hs Hd.
  destruct (Z.lt_ge_cases (num * nsize) (2 ^ w)) as [Hlt|Hge].
  - apply wrap_small. nia.
  - by destruct (mul_overflow_detected num nsize).
Qed.

(** ** The free-block scan *)

(** A block the scan returns is free and large enough. *)
Lemma get_free_block_from_found fuel st curr size b :
  get_free_block_from fuel st curr size = Ok b → b ≠ NULL →
  ∃ h, hdrs st !! b = Some h ∧ s_is_free h = true ∧ size ≤ s_size h.
Proof.
  revert curr. induction fuel as [|n IH]; intros curr; simpl; [done|].
  destruct (Z.eqb_spec curr NULL) as [->|Hc]; [congruence|].
  intros Hr Hb. apply bind_Ok in Hr as (h & Hl & Hr). apply load_Ok in Hl.
  destruct (s_is_free h && (size <=? s_size h)) eqn:Ht.
  - apply andb_true_iff in Ht as [Hf Hs]. inversion Hr; subst.
    exists h. split_and!; [done|done|lia].
  - eauto.
Qed.

(** More fuel does not change an answer. *)
Lemma get_free_block_from_fuel fuel fuel' st curr size r :
  get_free_block_from fuel st curr size = Ok r → (fuel ≤ fuel')%nat →
  get_free_block_from fuel' st curr size = Ok r.
Proof.
  revert fuel' curr. induction fuel as [|n IH]; intros [|n'] curr; simpl;
    try done; try lia.
  destruct (curr =? NULL); [done|].
  destruct (load st curr) as [h| |]; simpl; try done.
  destruct (s_is_free h && (size <=? s_size h)); [done|].
  intros. apply IH; [done|lia].
Qed.

(** ** [malloc] on its three paths *)

Lemma malloc_reuse fuel st size b :
  size ≠ 0 → get_free_block fuel st size = Ok b → b ≠ NULL →
  ∃ h, hdrs st !! b = Some h ∧ s_is_free h = true ∧ size ≤ s_size h ∧
       malloc fuel st size
       = Ok (NULL, set_hdrs (<[b := set_is_free false h]> (hdrs st)) st).
Proof.
  intros Hs Hg Hb.
  destruct (get_free_block_from_found _ _ _ _ _ Hg Hb) as (h & Hl & Hf & Hsz).
  exists h. split_and!; try done.
  unfold malloc. destruct (Z.eqb_spec size 0); [done|].
  rewrite Hg. simpl. destruct (Z.eqb_spec b NULL); [done|]. simpl.
  by rewrite (store_Ok _ _ _ _ Hl).
Qed.

Lemma malloc_refused fuel st size :
  size ≠ 0 → get_free_block fuel st size = Ok NULL →
  refused st (to_intptr (wrap (hsz + size))) = true →
  malloc fuel st size = Ok (NULL, st).
Proof.
  intros Hs Hg Hr. unfold malloc.
  destruct (Z.eqb_spec size 0); [contradiction|].
  rewrite Hg. simpl. unfold sbrk. rewrite Hr.
  destruct (Z.eqb_spec (to_intptr (wrap (hsz + size))) 0) as [E|_]; [|done].
  unfold refused in Hr. rewrite E in Hr. done.
Qed.

(** C3: when no block can be reused and the kernel refuses to raise the
    break, [malloc] returns [NULL] and the state is the one before the
    call. *)
Theorem malloc_out_of_memory fuel st size :
  0 < size → get_free_block fuel st size = Ok NULL →
  refused st (to_intptr (wrap (hsz + size))) = true →
  malloc fuel st size = Ok (NULL, st).
Proof. intros Hs. apply malloc_refused. lia. Qed.

(** ** [calloc] *)

(** C6: [calloc] returns [NULL] and leaves the state as it was when one
    argument is zero, and when the product of the two does not fit
    [size_t] (which is what the division test finds). *)
Theorem calloc_zero_or_overflow fuel st num nsize :
  0 < w → 0 ≤ num < 2 ^ w → 0 ≤ nsize < 2 ^ w →
  num = 0 ∨ nsize = 0 ∨ 2 ^ w ≤ num * nsize
    ∨ wrap (num * nsize) / num ≠ nsize →
  calloc fuel st num nsize = Ok (NULL, st).
Proof.
  intros Hw Hn Hs Hc. unfold calloc.
  destruct (Z.eqb_spec num 0) as [|Hn0]; [done|].
  destruct (Z.eqb_spec nsize 0) as [|Hs0]; [done|]. simpl.
  assert (wrap (num * nsize) / num ≠ nsize) as Hd.
  { destruct Hc as [?|[?|[?|?]]]; try done.
    apply mul_overflow_detected; lia. }
  destruct (Z.eqb_spec nsize (wrap (num * nsize) / num)); [congruence|done].
Qed.

(** C7: after a call of [calloc] that returns a block, each of the
    [num * nsize] bytes of the block reads as zero. *)
Theorem calloc_zeroed fuel st num nsize block st' :
  0 < w → 0 ≤ num < 2 ^ w → 0 ≤ nsize < 2 ^ w →
  calloc fuel st num nsize = Ok (block, st') → block ≠ NULL →
  ∀ i, 0 ≤ i < num * nsize → bytes st' (block + i) = x00.
Proof.
  intros Hw Hn Hs Hc Hb i Hi. unfold calloc in Hc.
  destruct (Z.eqb_spec num 0) as [|Hn0]; [simpl in Hc; congruence|].
  destruct (Z.eqb_spec nsize 0) as [|Hs0]; [simpl in Hc; congruence|].
  simpl in Hc.
  destruct (Z.eqb_spec nsize (wrap (num * nsize) / num)) as [Hd|];
    [|simpl in Hc; congruence].
  simpl in Hc. apply bind_Ok in Hc as ([r st1] & Hm & Hc).
  destruct (Z.eqb_spec r NULL); [congruence|].
  inversion Hc; subst block st'. simpl.
  rewrite (mul_no_overflow num nsize) by (done || lia).
  destruct (Z.leb_spec r (r + i)); [|lia].
  destruct (Z.ltb_spec (r + i) (r + num * nsize)); [done|lia].
Qed.

(** ** Changing the flag of one block *)

(** What [print_mem_list] shows after the flag of the block at [p] has
    been written: the same blocks in the same order, with that flag. *)
Lemma print_mem_list_from_flag n st p h b curr bl :
  hdrs st !! p = Some h →
  print_mem_list_from n st curr = Ok bl →
  print_mem_list_from n (set_hdrs (<[p := set_is_free b h]> (hdrs st)) st) curr
  = Ok (map (λ e, if e.1 =? p then (e.1, set_is_free b e.2) else e) bl).
Proof.
  intros Hp. revert curr bl. induction n as [|n IH]; intros curr bl; simpl;
    [done|].
  destruct (Z.eqb_spec curr NULL); [by intros [= <-]|].
  intros Hr. apply bind_Ok in Hr as (h' & Hl & Hr). apply load_Ok in Hl.
  apply bind_Ok in Hr as (rest & Hrest & [= <-]).
  unfold load at 1. simpl.
  destruct (Z.eq_dec p curr) as [->|Hne].
  - rewrite lookup_insert_eq. simpl.
    assert (h' = h) as -> by congruence.
    rewrite (IH _ _ Hrest). simpl. by rewrite Z.eqb_refl.
  - rewrite lookup_insert_ne, Hl by done. simpl.
    rewrite (IH _ _ Hrest). simpl.
    destruct (Z.eqb_spec curr p); [congruence|done].
Qed.

(** ** [free] away from the break *)

Lemma free_not_at_break fuel st block h :
  block ≠ NULL → hdrs st !! (block - hsz) = Some h →
  block + s_size h ≠ brk st →
  free fuel st block
  = Ok (set_hdrs (<[block - hsz := set_is_free true h]> (hdrs st)) st).
Proof.
  intros Hb Hl Hne. unfold free.
  destruct (Z.eqb_spec block NULL); [contradiction|].
  rewrite sbrk_query. cbv zeta iota beta.
  rewrite (proj2 (load_Ok _ _ _) Hl). simpl.
  destruct (Z.eqb_spec (block + s_size h) (brk st)); [contradiction|].
  by apply store_Ok.
Qed.

(** ** [realloc] of a block that is large enough *)

Lemma realloc_in_place fuel st block size h :
  block ≠ NULL → size ≠ 0 → hdrs st !! (block - hsz) = Some h →
  size ≤ s_size h →
  realloc fuel st block size = Ok (block, st).
Proof.
  intros Hb Hs Hl Hle. unfold realloc.
  destruct (Z.eqb_spec block NULL); [contradiction|].
  destruct (Z.eqb_spec size 0); [contradiction|]. simpl.
  unfold load. rewrite Hl. simpl.
  destruct (Z.leb_spec size (s_size h)); [done|lia].
Qed.

(** C8: when the recorded size of the block is at least the new size,
    [realloc] returns the block it was given and the state is the one
    before the call. *)
Theorem realloc_fits_in_place fuel st block size h :
  block ≠ NULL → 0 < size → hdrs st !! (block - hsz) = Some h →
  size ≤ s_size h →
  realloc fuel st block size = Ok (block, st).
Proof. intros Hb Hs. apply realloc_in_place; [done|lia]. Qed.

(** ** The layout of the block list *)

Lemma hd_app_cons {A} (d d' : A) (k1 k2 : list A) (x : A) :
  hd d (k1 ++ x :: k2) = hd d' (k1 ++ [x]).
Proof. by destruct k1. Qed.

(** [layout] only reads the headers of the list. *)
Lemma layout_frame st st' l nxt top :
  (∀ a, a ∈ l → hdrs st' !! a = hdrs st !! a) →
  layout st l nxt top → layout st' l nxt top.
Proof.
  induction l as [|a l IH]; simpl; [done|].
  intros Hf (Ha & h & Hl & H0 & H1 & Hn & Ht & Hr).
  split; [done|]. exists h. rewrite Hf by (apply elem_of_cons; by left).
  split_and!; try done.
  apply IH; [|done]. intros b Hb. apply Hf, elem_of_cons. by right.
Qed.

Lemma layout_top st l nxt top top' :
  top ≤ top' → layout st l nxt top → layout st l nxt top'.
Proof.
  intros Hle. induction l as [|a l IH]; simpl; [done|].
  intros (Ha & h & Hl & H0 & H1 & Hn & Ht & Hr).
  split; [done|]. exists h. split_and!; try done; [|by apply IH].
  destruct l; simpl in *; lia.
Qed.

Lemma layout_app st l1 l2 nxt top :
  layout st (l1 ++ l2) nxt top
  ↔ layout st l1 (hd nxt l2) (hd top l2) ∧ layout st l2 nxt top.
Proof.
  induction l1 as [|a l1 IH]; simpl; [tauto|].
  assert (∀ d : Z, hd d (l1 ++ l2) = hd (hd d l2) l1) as E
    by (by destruct l1).
  rewrite !E. split.
  - intros (Ha & h & Hl & H0 & H1 & Hn & Ht & [Hr1 Hr2]%IH). split; [|done].
    split; [done|]. by exists h.
  - intros ((Ha & h & Hl & H0 & H1 & Hn & Ht & Hr1) & Hr2).
    split; [done|]. exists h. split_and!; try done. by apply IH.
Qed.

(** Every block of the list lies above the start of the first one and
    ends at [top] or before. *)
Lemma layout_bounds st l nxt top a :
  0 < hsz → layout st l nxt top → a ∈ l →
  hd top l ≤ a ∧
  ∃ h, hdrs st !! a = Some h ∧ fits (s_size h) ∧ a + hsz + s_size h ≤ top.
Proof.
  intros Hh. revert a. induction l as [|b l IH]; simpl; intros a;
    [by intros _ ?%elem_of_nil|].
  intros (Hb & h & Hl & H0 & H1 & Hn & Ht & Hr) [->|Ha]%elem_of_cons.
  - split; [lia|]. exists h. split_and!; try done.
    destruct l as [|c l]; [done|].
    destruct (IH c Hr) as (_ & hc & _ & [? ?] & ?); [by left|].
    simpl in Ht. lia.
  - destruct (IH a Hr Ha) as (Hle & ha & Hla & Hfa & Hta).
    split; [|by exists ha].
    destruct l; simpl in *; [by apply elem_of_nil in Ha|lia].
Qed.

(** The addresses of the list are strictly increasing. *)
Lemma layout_sorted st l nxt top :
  0 < hsz → layout st l nxt top → StronglySorted Z.lt l.
Proof.
  intros Hh. induction l as [|a l IH]; simpl; [constructor|].
  intros (Ha & h & Hl & H0 & H1 & Hn & Ht & Hr).
  constructor; [by apply IH|]. apply Forall_forall. intros b Hb.
  destruct (layout_bounds _ _ _ _ b Hh Hr Hb) as [Hle _].
  destruct l; simpl in *; [by apply elem_of_nil in Hb|lia].
Qed.

Lemma layout_NoDup st l nxt top :
  0 < hsz → layout st l nxt top → NoDup l.
Proof.
  intros Hh Hl. pose proof (layout_sorted _ _ _ _ Hh Hl) as Hs.
  clear Hl. induction Hs as [|a l Hs IH Hall]; constructor; [|done].
  intros Ha. rewrite Forall_forall in Hall. specialize (Hall a Ha). lia.
Qed.

(** No block is at address [NULL]. *)
Lemma layout_not_NULL st l nxt top a :
  layout st l nxt top → a ∈ l → a ≠ NULL.
Proof.
  revert a. induction l as [|b l IH]; simpl; intros a;
    [by intros _ ?%elem_of_nil|].
  intros (Hb & h & _ & _ & _ & _ & _ & Hr) [->|Ha]%elem_of_cons.
  - unfold NULL. lia.
  - by apply IH.
Qed.

(** A block whose payload ends at [top] is the last of the list. *)
Lemma layout_at_top st l nxt top a h :
  0 < hsz → layout st l nxt top → a ∈ l → hdrs st !! a = Some h →
  a + hsz + s_size h = top → ∃ l0, l = l0 ++ [a].
Proof.
  intros Hh Hl Ha Hla Htop.
  apply list_elem_of_split in Ha as (l1 & l2 & ->).
  destruct l2 as [|b l2]; [by exists l1|]. exfalso.
  apply layout_app in Hl as [_ Hl]. simpl in Hl.
  destruct Hl as (_ & h' & Hl' & _ & _ & _ & Hb & Hr).
  assert (h' = h) as -> by congruence. simpl in Hb.
  destruct (layout_bounds st (b :: l2) nxt top b Hh Hr)
    as (_ & hb & _ & [? ?] & ?); [by left|]. lia.
Qed.

(** ** The loops on a well-laid-out list *)

(** The scan of [get_free_block] ends once it has fuel for every block
    and one more test. *)
Lemma get_free_block_from_layout fuel st l top size :
  layout st l NULL top → (length l < fuel)%nat →
  ∃ r, get_free_block_from fuel st (hd NULL l) size = Ok r
       ∧ (r = NULL ∨ r ∈ l).
Proof.
  revert fuel. induction l as [|a l IH]; intros [|n]; simpl; try lia.
  - intros _ _. exists NULL. by split; [|left].
  - intros (Ha & h & Hl & _ & _ & Hn & _ & Hr) Hlen.
    destruct (Z.eqb_spec a NULL) as [E|_]; [unfold NULL in E; lia|].
    rewrite (proj2 (load_Ok _ _ _) Hl). simpl.
    destruct (s_is_free h && (size <=? s_size h)).
    + exists a. split; [done|]. right. by left.
    + rewrite Hn. destruct (IH n Hr) as (r & Hg & Hin); [lia|].
      exists r. split; [done|]. destruct Hin; [by left|right; by right].
Qed.

(** The scan is first fit: it returns the first block of the list that is
    free and large enough, and [NULL] when the list has no such block. *)
Lemma get_free_block_from_first_fit fuel st l top size r :
  layout st l NULL top →
  get_free_block_from fuel st (hd NULL l) size = Ok r →
  (r = NULL ∧
   ∀ a h, a ∈ l → hdrs st !! a = Some h →
     s_is_free h && (size <=? s_size h) = false)
  ∨ (∃ l1 l2 h,
       l = l1 ++ r :: l2 ∧ hdrs st !! r = Some h ∧
       s_is_free h && (size <=? s_size h) = true ∧
       ∀ a h', a ∈ l1 → hdrs st !! a = Some h' →
         s_is_free h' && (size <=? s_size h') = false).
Proof.
  revert fuel. induction l as [|a l IH]; intros [|n]; simpl; try done.
  - intros _ [= <-]. left. split; [done|]. by intros a h ?%elem_of_nil.
  - intros (Ha & h & Hl & _ & _ & Hn & _ & Hr).
    destruct (Z.eqb_spec a NULL) as [E|_]; [unfold NULL in E; lia|].
    rewrite (proj2 (load_Ok _ _ _) Hl). simpl.
    destruct (s_is_free h && (size <=? s_size h)) eqn:Ht.
    + intros [= <-]. right. exists [], l, h. split_and!; try done.
      by intros b h' ?%elem_of_nil.
    + rewrite Hn. intros Hg.
      destruct (IH n Hr Hg) as [[-> Hall]|(l1 & l2 & hr & -> & Hlr & Htr & Hall)].
      * left. split; [done|]. intros b hb [->|Hb]%elem_of_cons Hlb.
        -- congruence.
        -- by apply (Hall b).
      * right. exists (a :: l1), l2, hr. split_and!; try done.
        intros b hb [->|Hb]%elem_of_cons Hlb.
        -- congruence.
        -- by apply (Hall b).
Qed.

Lemma get_free_block_wf fuel st l size :
  wf st l → (length l < fuel)%nat →
  ∃ r, get_free_block fuel st size = Ok r ∧ (r = NULL ∨ r ∈ l).
Proof.
  intros [Hhd _ _ Hl] Hlen. unfold get_free_block. rewrite Hhd.
  by eapply get_free_block_from_layout.
Qed.

(** The loop of [free] cuts the last block [t] off the list and makes the
    block [p] before it the tail. *)
Lemma free_unlink_layout fuel st l1 p t top hp :
  0 < hsz → layout st (l1 ++ [p; t]) NULL top → tail st = t →
  hdrs st !! p = Some hp → (length l1 + 1 < fuel)%nat →
  free_unlink fuel st (hd NULL (l1 ++ [p; t]))
  = Ok (set_tail p (set_hdrs (<[p := set_next NULL hp]> (hdrs st)) st)).
Proof.
  intros Hh. revert fuel.
  induction l1 as [|a l1 IH]; intros [|n] Hl Ht Hp Hlen; simpl in *; try lia.
  - destruct Hl as (H0 & h & Hl & _ & _ & Hn & _ & _).
    assert (h = hp) as -> by congruence.
    destruct (Z.eqb_spec p NULL) as [E|_]; [unfold NULL in E; lia|].
    rewrite (proj2 (load_Ok _ _ _) Hp). simpl. rewrite Hn, Ht, Z.eqb_refl.
    rewrite (store_Ok _ _ _ _ Hp). simpl.
    unfold load. simpl. rewrite lookup_insert_eq. simpl.
    destruct n; [lia|done].
  - pose proof (layout_NoDup st (a :: l1 ++ [p; t]) NULL top Hh Hl) as Hnd.
    destruct Hl as (H0 & h & Hl & _ & _ & Hn & _ & Hr).
    destruct (Z.eqb_spec a NULL) as [E|_]; [unfold NULL in E; lia|].
    rewrite (proj2 (load_Ok _ _ _) Hl). simpl.
    assert (s_next h ≠ tail st) as Hne.
    { rewrite Hn, Ht. apply NoDup_cons in Hnd as [_ Hnd].
      replace (l1 ++ [p; t]) with ((l1 ++ [p]) ++ [t]) in Hnd
        by (by rewrite <- app_assoc).
      apply NoDup_app in Hnd as (_ & Hnd & _).
      rewrite (hd_app_cons _ NULL). intros E.
      apply (Hnd t); [|by left]. rewrite <- E.
      destruct l1; simpl; by left. }
    destruct (Z.eqb_spec (s_next h) (tail st)); [done|]. simpl.
    rewrite (proj2 (load_Ok _ _ _) Hl). simpl. rewrite Hn.
    apply IH; try done. lia.
Qed.

(** Writing the link of the last block of a list. *)
Lemma layout_relink st st' l1 p hp nxt nxt' top :
  0 < hsz → layout st (l1 ++ [p]) nxt top → hdrs st !! p = Some hp →
  hdrs st' = <[p := set_next nxt' hp]> (hdrs st) →
  layout st' (l1 ++ [p]) nxt' top.
Proof.
  intros Hh Hl Hp Hst'.
  pose proof (layout_NoDup _ _ _ _ Hh Hl) as Hnd.
  apply NoDup_app in Hnd as (_ & Hnd & _).
  apply layout_app in Hl as [Hl1 Hlp]. apply layout_app. split.
  - apply (layout_frame st); [|done]. intros a Ha. rewrite Hst'.
    apply lookup_insert_ne. intros ->. apply (Hnd a Ha). by left.
  - simpl in *. destruct Hlp as (H0 & h & Hl & Hs0 & Hs1 & _ & Ht & _).
    assert (h = hp) as -> by congruence.
    split; [done|]. exists (set_next nxt' hp).
    rewrite Hst', lookup_insert_eq. by split_and!.
Qed.

(** ** [free] at the break *)

(** The release of the last block, in full. *)
Lemma free_release fuel st l block h :
  0 < w → 0 < hsz → wf st l → (length l < fuel)%nat →
  (block - hsz) ∈ l → hdrs st !! (block - hsz) = Some h →
  block + s_size h = brk st →
  ∃ l0 st',
    free fuel st block = Ok st' ∧
    l = l0 ++ [block - hsz] ∧ tail st = block - hsz ∧
    brk st' = brk st - (hsz + s_size h) ∧
    wf st' l0 ∧ (block - hsz ∉ l0) ∧ bytes st' = bytes st ∧
    (∀ a h0, hdrs st !! a = Some h0 →
       ∃ n, hdrs st' !! a = Some (set_next n h0)) ∧
    (head st = block - hsz →
       l0 = [] ∧ head st' = NULL ∧ tail st' = NULL) ∧
    (head st ≠ block - hsz →
       ∃ l1 p hp,
         l0 = l1 ++ [p] ∧ hdrs st !! p = Some hp ∧
         s_next hp = block - hsz ∧
         hdrs st' !! p = Some (set_next NULL hp) ∧
         tail st' = p ∧ head st' = head st ∧
         ∀ a, a ≠ p → hdrs st' !! a = hdrs st !! a).
Proof.
  intros Hw Hh [Hhd Htl Hbrk Hl] Hlen Hin Hlook Hend.
  set (t := block - hsz) in *.
  destruct (layout_at_top st l NULL (brk st) t h Hh Hl Hin Hlook)
    as [l0 ->]; [unfold t; lia|].
  pose proof (layout_NoDup _ _ _ _ Hh Hl) as Hnd.
  apply NoDup_app in Hnd as (_ & Hnd & _).
  assert (t ∉ l0) as Hnot by (intros Ht; apply (Hnd t Ht); by left).
  destruct (layout_bounds st _ NULL (brk st) t Hh Hl Hin)
    as (_ & h' & Hh' & Hfit & _).
  assert (h' = h) as -> by congruence.
  assert (0 < t) as Htpos.
  { pose proof (layout_not_NULL _ _ _ _ t Hl Hin). apply layout_app in Hl.
    simpl in Hl. tauto. }
  rewrite last_snoc in Htl. simpl in Htl.
  assert (∀ st1, hdrs st1 !! t = Some h → brk st1 = brk st →
            sbrk st1 (to_intptr (wrap (wrap (0 - s_size h) - hsz)))
            = (brk st, set_brk (brk st - (hsz + s_size h)) st1)) as Hrel.
  { intros st1 _ Hb1. rewrite (to_intptr_release _ Hw Hh Hfit).
    destruct Hfit as [Hf0 Hf1]. unfold sbrk, refused.
    destruct (Z.eqb_spec (- (hsz + s_size h)) 0); [lia|].
    destruct (Z.ltb_spec 0 (- (hsz + s_size h))); [lia|]. simpl.
    rewrite Hb1. repeat f_equal; lia. }
  assert (∀ st1, hdrs st1 !! t = Some h → brk st1 = brk st →
            (if head st =? tail st
             then Ok (set_tail NULL (set_head NULL st))
             else free_unlink fuel st (head st)) = Ok st1 →
            free fuel st block
            = Ok (set_brk (brk st - (hsz + s_size h)) st1)) as Hfree.
  { intros st1 Ht1 Hb1 Hst1. unfold free.
    destruct (Z.eqb_spec block NULL) as [E|_];
      [unfold NULL, t in *; lia|].
    rewrite sbrk_query. cbv zeta iota beta. fold t.
    rewrite (proj2 (load_Ok _ _ _) Hlook). simpl.
    destruct (Z.eqb_spec (block + s_size h) (brk st)); [|done].
    rewrite Hst1. simpl. rewrite (proj2 (load_Ok _ _ _) Ht1). simpl.
    by rewrite (Hrel st1 Ht1 Hb1). }
  destruct l0 as [|x l0' _] using rev_ind.
  - (* the block is the only one *)
    simpl in Hhd.
    exists [], (set_brk (brk st - (hsz + s_size h))
                  (set_tail NULL (set_head NULL st))).
    split_and!; try done.
    + apply Hfree; try done. by rewrite Hhd, Htl, Z.eqb_refl.
    + split; simpl; try done. lia.
    + intros a h0 Ha. exists (s_next h0). simpl. by destruct h0.
  - (* the block [x] comes before it *)
    rewrite <- app_assoc in Hhd, Hl, Hlen. simpl in Hhd, Hl, Hlen.
    assert (x ∈ (l0' ++ [x]) ++ [t]) as Hx
      by (apply elem_of_app; left; apply elem_of_app; right; by left).
    rewrite <- app_assoc in Hx. simpl in Hx.
    destruct (layout_bounds st _ NULL (brk st) x Hh Hl Hx)
      as (_ & hx & Hhx & _ & _).
    assert (x ≠ t) as Hxt.
    { intros ->. apply Hnot, elem_of_app. right. by left. }
    assert (head st ≠ t) as Hht.
    { rewrite Hhd, (hd_app_cons _ NULL). intros E. apply Hnot.
      rewrite <- E. destruct l0'; by left. }
    set (st1 := set_tail x (set_hdrs (<[x := set_next NULL hx]> (hdrs st)) st)).
    exists (l0' ++ [x]), (set_brk (brk st - (hsz + s_size h)) st1).
    assert (layout st (l0' ++ [x]) t t ∧ s_next hx = t) as [Hl0 Hnx].
    { replace (l0' ++ [x; t]) with ((l0' ++ [x]) ++ [t]) in Hl
        by (by rewrite <- app_assoc).
      apply layout_app in Hl as [Hl _]. split; [done|].
      apply layout_app in Hl as [_ Hl]. simpl in Hl.
      destruct Hl as (_ & h0 & Hh0 & _ & _ & Hn0 & _). congruence. }
    split_and!; try done.
    + apply Hfree; try done.
      * simpl. by rewrite lookup_insert_ne.
      * destruct (Z.eqb_spec (head st) (tail st)); [congruence|].
        rewrite Hhd. apply (free_unlink_layout _ _ _ _ t (brk st)); try done.
        rewrite length_app in Hlen. simpl in Hlen. lia.
    + split; simpl.
      * clear -Hhd. rewrite Hhd. by destruct l0'.
      * by rewrite last_snoc.
      * lia.
      * replace (brk st - (hsz + s_size h)) with t by (unfold t; lia).
        by apply (layout_relink st _ _ _ hx t).
    + intros a h0 Ha. simpl. destruct (Z.eq_dec a x) as [->|Hax].
      * exists NULL. rewrite lookup_insert_eq. congruence.
      * exists (s_next h0). rewrite lookup_insert_ne by done. by destruct h0.
    + intros _. exists l0', x, hx. simpl. split_and!; try done.
      * apply lookup_insert_eq.
      * intros a Ha. by apply lookup_insert_ne.
Qed.

(** C2: when the payload of the block ends at the break, the block is the
    tail, and [free] takes it off the list: if it is the head as well the
    list becomes empty, otherwise the block before it gets the link [NULL]
    and becomes the tail; the break goes down by exactly
    [sizeof(header_t)] plus the size of the block, and the list that
    remains is well formed and does not hold the block. *)
Theorem free_at_break fuel st l block h :
  0 < w → 0 < hsz → wf st l → (length l < fuel)%nat →
  (block - hsz) ∈ l → hdrs st !! (block - hsz) = Some h →
  block + s_size h = brk st →
  ∃ l0 st',
    free fuel st block = Ok st' ∧
    l = l0 ++ [block - hsz] ∧ tail st = block - hsz ∧
    brk st' = brk st - (hsz + s_size h) ∧
    wf st' l0 ∧ (block - hsz ∉ l0) ∧ bytes st' = bytes st ∧
    (head st = block - hsz →
       l0 = [] ∧ head st' = NULL ∧ tail st' = NULL) ∧
    (head st ≠ block - hsz →
       ∃ l1 p hp,
         l0 = l1 ++ [p] ∧ hdrs st !! p = Some hp ∧
         s_next hp = block - hsz ∧
         hdrs st' !! p = Some (set_next NULL hp) ∧
         tail st' = p ∧ head st' = head st ∧
         ∀ a, a ≠ p → hdrs st' !! a = hdrs st !! a).
Proof.
  intros Hw Hh Hwf Hlen Hin Hlook Hend.
  destruct (free_release fuel st l block h Hw Hh Hwf Hlen Hin Hlook Hend)
    as (l0 & st' & Hf & Hl & Ht & Hb & Hwf' & Hnot & Hby & _ & H1 & H2).
  exists l0, st'. by split_and!.
Qed.

(** Writing the flag of a block does not move anything. *)
Lemma layout_flag st st' l nxt top b h f :
  hdrs st !! b = Some h → hdrs st' = <[b := set_is_free f h]> (hdrs st) →
  layout st l nxt top → layout st' l nxt top.
Proof.
  intros Hb Hst'. induction l as [|a l IH]; simpl; [done|].
  intros (Ha & h' & Hl & H0 & H1 & Hn & Ht & Hr).
  split; [done|]. rewrite Hst'. destruct (Z.eq_dec b a) as [->|Hne].
  - assert (h' = h) as -> by congruence.
    exists (set_is_free f h). rewrite lookup_insert_eq.
    split_and!; try done. by apply IH.
  - exists h'. rewrite lookup_insert_ne by done.
    split_and!; try done. by apply IH.
Qed.

Lemma wf_flag st l b h f :
  wf st l → hdrs st !! b = Some h →
  wf (set_hdrs (<[b := set_is_free f h]> (hdrs st)) st) l.
Proof.
  intros [Hhd Htl Hbrk Hl] Hb. split; try done. simpl.
  by apply (layout_flag st _ _ _ _ b h f).
Qed.

(** The payload bytes do not enter well-formedness. *)
Lemma wf_bytes st l g : wf st l → wf (set_bytes g st) l.
Proof.
  intros [Hhd Htl Hbrk Hl]. split; try done. simpl.
  by apply (layout_frame st).
Qed.

(** Every block of a well-formed state lies below the break. *)
Lemma wf_below_brk st l a :
  0 < hsz → wf st l → a ∈ l →
  0 < a ∧ ∃ h, hdrs st !! a = Some h ∧ fits (s_size h)
               ∧ a + hsz + s_size h ≤ brk st.
Proof.
  intros Hh [_ _ _ Hl] Ha.
  pose proof (layout_not_NULL _ _ _ _ a Hl Ha) as Hn.
  destruct (layout_bounds _ _ _ _ a Hh Hl Ha) as (Hle & h & ? & ? & ?).
  split; [|by exists h].
  apply list_elem_of_split in Ha as (l1 & l2 & ->).
  apply layout_app in Hl as [_ Hl]. simpl in Hl. tauto.
Qed.

(** ** [malloc] that raises the break *)

Lemma malloc_grow fuel st l size :
  0 < w → 0 < hsz → wf st l → 0 < size → fits size →
  get_free_block fuel st size = Ok NULL →
  refused st (hsz + size) = false →
  ∃ st',
    malloc fuel st size = Ok (brk st + hsz, st') ∧
    wf st' (l ++ [brk st]) ∧ brk st' = brk st + (hsz + size) ∧
    bytes st' = bytes st ∧
    hdrs st' !! brk st = Some (Header size false NULL) ∧
    ∀ a h, a ≠ brk st → hdrs st !! a = Some h →
      ∃ n, hdrs st' !! a = Some (set_next n h).
Proof.
  intros Hw Hh Hwf Hs Hfit Hg Href. pose proof Hwf as [Hhd Htl Hbrk Hl].
  set (b := brk st) in *.
  set (hdrs2 := <[b := Header size false NULL]> (hdrs st)).
  assert (∀ a, a ∈ l → a ≠ b) as Hfresh.
  { intros a Ha ->. destruct (wf_below_brk st l b Hh Hwf Ha)
      as (_ & h & _ & [? ?] & ?). fold b in H1. lia. }
  assert (∀ st4,
    (let st2 := set_hdrs hdrs2 (set_brk (b + (hsz + size)) st) in
     let st3 := if head st2 =? NULL then set_head b st2 else st2 in
     (if negb (tail st3 =? NULL)
      then store st3 (tail st3) (set_next b) else Ok st3) = Ok st4) →
    malloc fuel st size = Ok (b + hsz, set_tail b st4)) as Hm.
  { intros st4 Hst4. unfold malloc.
    destruct (Z.eqb_spec size 0); [lia|]. rewrite Hg. simpl.
    rewrite (to_intptr_total _ Hw (Z.lt_le_incl _ _ Hh) Hfit).
    unfold sbrk. destruct (Z.eqb_spec (hsz + size) 0);
      [destruct Hfit; lia|].
    rewrite Href. fold b.
    destruct (Z.eqb_spec b SBRK_FAILED) as [E|_];
      [unfold SBRK_FAILED in E; lia|].
    cbv zeta in Hst4. simpl in Hst4. simpl. fold hdrs2. by rewrite Hst4. }
  destruct l as [|x l0 _] using rev_ind.
  - (* the first block *)
    simpl in Hhd, Htl.
    eexists. split;
      [apply Hm; simpl; rewrite Hhd, Z.eqb_refl; simpl;
       by rewrite Htl, Z.eqb_refl|].
    simpl. split_and!; try done.
    + split; simpl; try done; [lia|].
      split; [done|]. exists (Header size false NULL).
      unfold hdrs2. rewrite lookup_insert_eq. destruct Hfit.
      split_and!; simpl; try done. lia.
    + apply lookup_insert_eq.
    + intros a h Ha Hla. exists (s_next h). unfold hdrs2.
      rewrite lookup_insert_ne by done. by destruct h.
  - (* a block appended after the tail [x] *)
    rewrite last_snoc in Htl. simpl in Htl.
    assert (x ∈ l0 ++ [x]) as Hx by (apply elem_of_app; right; by left).
    destruct (wf_below_brk st _ x Hh Hwf Hx) as (Hx0 & hx & Hhx & _ & _).
    assert (head st ≠ NULL) as Hhn.
    { rewrite Hhd. apply (layout_not_NULL _ _ _ _ _ Hl).
      destruct l0; by left. }
    assert (hdrs2 !! x = Some hx) as Hx2.
    { unfold hdrs2. rewrite lookup_insert_ne; [done|].
      intros E. by apply (Hfresh x). }
    eexists. split.
    { apply Hm. simpl. destruct (Z.eqb_spec (head st) NULL); [done|].
      simpl. rewrite Htl. destruct (Z.eqb_spec x NULL) as [E|_];
        [unfold NULL in E; lia|]. simpl.
      unfold store, load. simpl. by rewrite Hx2. }
    simpl. split_and!; try done.
    + split; simpl.
      * rewrite Hhd. by destruct l0.
      * by rewrite last_snoc.
      * lia.
      * apply layout_app. simpl. split.
        -- apply (layout_relink (set_hdrs hdrs2 st) _ _ _ hx NULL);
             try done.
           apply (layout_frame st); [|done]. intros a Ha. simpl.
           unfold hdrs2. rewrite lookup_insert_ne; [done|].
           intros E. by apply (Hfresh a).
        -- split; [done|]. exists (Header size false NULL).
           rewrite lookup_insert_ne by (intros E; by apply (Hfresh x)).
           unfold hdrs2. rewrite lookup_insert_eq. destruct Hfit.
           split_and!; simpl; try done. lia.
    + rewrite lookup_insert_ne by (intros E; by apply (Hfresh x)).
      apply lookup_insert_eq.
    + intros a h Ha Hla. destruct (Z.eq_dec a x) as [->|Hax].
      * exists b. rewrite lookup_insert_eq. congruence.
      * exists (s_next h). rewrite lookup_insert_ne by done. unfold hdrs2.
        rewrite lookup_insert_ne by done. by destruct h.
Qed.

(** ** More fuel does not change a result *)

Lemma free_unlink_fuel fuel fuel' st tmp r :
  free_unlink fuel st tmp = Ok r → (fuel ≤ fuel')%nat →
  free_unlink fuel' st tmp = Ok r.
Proof.
  revert fuel' st tmp. induction fuel as [|n IH]; intros [|n'] st tmp;
    simpl; try done; try lia.
  destruct (tmp =? NULL); [done|]. intros H Hle.
  apply bind_Ok in H as (h & -> & H). simpl.
  apply bind_Ok in H as (st1 & -> & H). simpl.
  apply bind_Ok in H as (h1 & -> & H). simpl.
  apply IH; [done|lia].
Qed.

Lemma free_fuel fuel fuel' st block r :
  free fuel st block = Ok r → (fuel ≤ fuel')%nat →
  free fuel' st block = Ok r.
Proof.
  unfold free. destruct (block =? NULL); [done|].
  rewrite sbrk_query. cbv zeta iota beta. intros H Hle.
  apply bind_Ok in H as (h & -> & H). simpl.
  destruct (block + s_size h =? brk st); [|done].
  apply bind_Ok in H as (st1 & Hst1 & H).
  destruct (head st =? tail st).
  - by rewrite Hst1.
  - by rewrite (free_unlink_fuel _ _ _ _ _ Hst1 Hle).
Qed.

Lemma malloc_fuel fuel fuel' st size r :
  malloc fuel st size = Ok r → (fuel ≤ fuel')%nat →
  malloc fuel' st size = Ok r.
Proof.
  unfold malloc. destruct (size =? 0); [done|]. intros H Hle.
  apply bind_Ok in H as (b & Hb & H). unfold get_free_block in *.
  by rewrite (get_free_block_from_fuel _ _ _ _ _ _ Hb Hle).
Qed.

Lemma calloc_fuel fuel fuel' st num nsize r :
  calloc fuel st num nsize = Ok r → (fuel ≤ fuel')%nat →
  calloc fuel' st num nsize = Ok r.
Proof.
  unfold calloc. destruct ((num =? 0) || (nsize =? 0)); [done|].
  destruct (negb (nsize =? wrap (num * nsize) / num)); [done|].
  intros H Hle. apply bind_Ok in H as ([b st1] & Hm & H).
  by rewrite (malloc_fuel _ _ _ _ _ Hm Hle).
Qed.

Lemma realloc_fuel fuel fuel' st block size r :
  realloc fuel st block size = Ok r → (fuel ≤ fuel')%nat →
  realloc fuel' st block size = Ok r.
Proof.
  unfold realloc. destruct ((block =? NULL) || (size =? 0));
    [apply malloc_fuel|].
  intros H Hle. apply bind_Ok in H as (h & -> & H). simpl.
  destruct (size <=? s_size h); [done|].
  apply bind_Ok in H as ([ret st1] & Hm & H).
  rewrite (malloc_fuel _ _ _ _ _ Hm Hle). simpl.
  destruct (negb (ret =? NULL)); [|done].
  apply bind_Ok in H as (h1 & -> & H). simpl.
  apply bind_Ok in H as (st2 & -> & H). simpl.
  apply bind_Ok in H as (st3 & Hf & H).
  by rewrite (free_fuel _ _ _ _ _ Hf Hle).
Qed.

(** ** What [malloc] does to a well-formed state *)

(** The call either leaves the state as it is (a zero size, or a refusal
    of the kernel), or clears the flag of a free block of the list, or
    appends a block at the break. *)
Lemma malloc_wf fuel st l size r st' :
  0 < w → 0 < hsz → wf st l → fits size →
  malloc fuel st size = Ok (r, st') →
  (r = NULL ∧ st' = st)
  ∨ (r = NULL ∧ ∃ b h,
       b ∈ l ∧ hdrs st !! b = Some h ∧ s_is_free h = true ∧
       size ≤ s_size h ∧
       st' = set_hdrs (<[b := set_is_free false h]> (hdrs st)) st)
  ∨ (r = brk st + hsz ∧ 0 < size ∧
     wf st' (l ++ [brk st]) ∧ brk st' = brk st + (hsz + size) ∧
     bytes st' = bytes st ∧
     hdrs st' !! brk st = Some (Header size false NULL) ∧
     ∀ a h, a ≠ brk st → hdrs st !! a = Some h →
       ∃ n, hdrs st' !! a = Some (set_next n h)).
Proof.
  intros Hw Hh Hwf Hfit Hm.
  set (n := Nat.max fuel (S (length l))).
  apply (malloc_fuel _ n) in Hm; [|lia].
  destruct (Z.eq_dec size 0) as [->|Hs0].
  { left. unfold malloc in Hm. simpl in Hm. by inversion Hm. }
  assert (0 < size) as Hs by (destruct Hfit; lia).
  destruct (get_free_block_wf n st l size Hwf) as (b & Hg & Hb); [lia|].
  destruct (Z.eq_dec b NULL) as [->|Hbn].
  - destruct (refused st (hsz + size)) eqn:Href.
    + left. rewrite malloc_refused in Hm; try done.
      * by inversion Hm.
      * by rewrite (to_intptr_total _ Hw (Z.lt_le_incl _ _ Hh) Hfit).
    + right; right.
      destruct (malloc_grow n st l size Hw Hh Hwf Hs Hfit Hg Href)
        as (st2 & Hm2 & ? & ? & ? & ? & ?).
      rewrite Hm2 in Hm. inversion Hm; subst r st2. by split_and!.
  - right; left. destruct Hb as [?|Hb]; [done|].
    destruct (malloc_reuse n st size b Hs0 Hg Hbn)
      as (h & Hl & Hf & Hsz & Hm2).
    rewrite Hm2 in Hm. inversion Hm; subst r st'.
    split; [done|]. by exists b, h.
Qed.

(** The handles of the list stay handles when [malloc] runs. *)
Lemma malloc_invariant fuel st L size r st' :
  0 < w → 0 < hsz → invariant st L → fits size →
  malloc fuel st size = Ok (r, st') →
  invariant st' (if r =? NULL then L else {[r]} ∪ L).
Proof.
  intros Hw Hh (l & Hwf & HL) Hfit Hm.
  destruct (malloc_wf _ _ _ _ _ _ Hw Hh Hwf Hfit Hm)
    as [[-> ->]|[[-> (b & h & Hb & Hl & Hf & Hsz & ->)]
       |(-> & Hs & Hwf' & Hbrk & Hby & Hnew & Hold)]].
  - exists l. by split.
  - exists l. split; [by apply wf_flag|]. simpl.
    intros block [Hin (hb & Hlb & Hfb)]%HL. split; [done|].
    exists hb. split; [|done]. simpl. rewrite lookup_insert_ne; [done|].
    intros E. subst b. congruence.
  - pose proof Hwf as [_ _ Hb0 _].
    destruct (Z.eqb_spec (brk st + hsz) NULL) as [E|_];
      [unfold NULL in E; lia|].
    exists (l ++ [brk st]). split; [done|].
    intros block [->%elem_of_singleton|Hin]%elem_of_union.
    + unfold handle_of.
      replace (brk st + hsz - hsz) with (brk st) by lia. split.
      * apply elem_of_app. right. by left.
      * by eexists.
    + destruct (HL _ Hin) as [Hbl (hb & Hlb & Hfb)]. split.
      * apply elem_of_app. by left.
      * destruct (Hold (block - hsz) hb) as [n Hn]; try done.
        -- intros E. destruct (wf_below_brk st l _ Hh Hwf Hbl)
             as (_ & h1 & _ & [? ?] & ?). lia.
        -- exists (set_next n hb). by split.
Qed.

(** ** What [free] does to a well-formed state *)

(** The block is flagged free and stays where it is, or it was the last
    one and is cut off.  Of the other headers only a link can change. *)
Lemma free_wf fuel st l block st' :
  0 < w → 0 < hsz → wf st l → (block - hsz) ∈ l →
  free fuel st block = Ok st' →
  bytes st' = bytes st ∧
  (∀ a h0, a ≠ block - hsz → hdrs st !! a = Some h0 →
     ∃ n, hdrs st' !! a = Some (set_next n h0)) ∧
  ((wf st' l ∧ brk st' = brk st ∧
    ∃ h, hdrs st !! (block - hsz) = Some h ∧ block + s_size h ≠ brk st ∧
         hdrs st' !! (block - hsz) = Some (set_is_free true h))
   ∨ (∃ l0 h, l = l0 ++ [block - hsz] ∧ wf st' l0 ∧ (block - hsz ∉ l0) ∧
              hdrs st !! (block - hsz) = Some h ∧
              block + s_size h = brk st ∧
              brk st' = brk st - (hsz + s_size h))).
Proof.
  intros Hw Hh Hwf Hin Hf.
  destruct (wf_below_brk st l _ Hh Hwf Hin) as (Hpos & h & Hl & _ & _).
  assert (block ≠ NULL) as Hb by (unfold NULL; lia).
  destruct (Z.eq_dec (block + s_size h) (brk st)) as [Hend|Hend].
  - set (n := Nat.max fuel (S (length l))).
    apply (free_fuel _ n) in Hf; [|lia].
    destruct (free_release n st l block h Hw Hh Hwf) as
      (l0 & st2 & Hf2 & -> & _ & Hbrk & Hwf' & Hnot & Hby & Hfr & _);
      try done; [lia|].
    rewrite Hf2 in Hf. inversion Hf; subst st2.
    split_and!; [done|by intros a h0 _; apply Hfr|].
    right. exists l0, h. by split_and!.
  - rewrite (free_not_at_break _ _ _ h) in Hf by done.
    inversion Hf; subst st'. simpl. split_and!; [done| |].
    + intros a h0 Ha Hla. exists (s_next h0).
      rewrite lookup_insert_ne by done. by destruct h0.
    + left. split_and!; [by apply wf_flag|done|].
      exists h. split_and!; try done. apply lookup_insert_eq.
Qed.

Lemma free_invariant fuel st L block st' :
  0 < w → 0 < hsz → invariant st L → block = NULL ∨ block ∈ L →
  free fuel st block = Ok st' →
  invariant st' (L ∖ {[block]}).
Proof.
  intros Hw Hh (l & Hwf & HL) [->|Hin] Hf.
  - unfold free in Hf. simpl in Hf. inversion Hf; subst st'.
    exists l. split; [done|]. intros b [Hb _]%elem_of_difference. by apply HL.
  - destruct (HL _ Hin) as [Hbl _].
    destruct (free_wf _ _ _ _ _ Hw Hh Hwf Hbl Hf) as (_ & Hfr & Hcase).
    assert (∀ b, b ∈ L ∖ {[block]} →
              b - hsz ≠ block - hsz ∧ (b - hsz) ∈ l ∧
              ∃ h, hdrs st' !! (b - hsz) = Some h ∧ s_is_free h = false)
      as Hkeep.
    { intros b [Hb Hne]%elem_of_difference.
      rewrite elem_of_singleton in Hne.
      destruct (HL _ Hb) as [Hbin (hb & Hlb & Hfb)].
      split_and!; [lia|done|].
      destruct (Hfr (b - hsz) hb) as [n Hn]; [lia|done|].
      exists (set_next n hb). by split. }
    destruct Hcase as [(Hwf' & _)|(l0 & h & -> & Hwf' & _)].
    + exists l. split; [done|]. intros b Hb.
      destruct (Hkeep b Hb) as (_ & ? & ?). by split.
    + exists l0. split; [done|]. intros b Hb.
      destruct (Hkeep b Hb) as (Hne & Hbin & ?). split; [|done].
      apply elem_of_app in Hbin as [?|Hx]; [done|].
      apply list_elem_of_singleton in Hx. contradiction.
Qed.

(** With fuel for the scan, [malloc] returns. *)
Lemma malloc_total fuel st l size :
  0 < w → 0 < hsz → wf st l → fits size → (length l < fuel)%nat →
  ∃ r st', malloc fuel st size = Ok (r, st').
Proof.
  intros Hw Hh Hwf Hfit Hlen.
  destruct (Z.eq_dec size 0) as [->|Hs0]; [by exists NULL, st|].
  assert (0 < size) as Hs by (destruct Hfit; lia).
  destruct (get_free_block_wf fuel st l size Hwf Hlen) as (b & Hg & Hb).
  destruct (Z.eq_dec b NULL) as [->|Hbn].
  - destruct (refused st (hsz + size)) eqn:Href.
    + exists NULL, st. apply malloc_refused; try done.
      by rewrite (to_intptr_total _ Hw (Z.lt_le_incl _ _ Hh) Hfit).
    + destruct (malloc_grow fuel st l size Hw Hh Hwf Hs Hfit Hg Href)
        as (st2 & Hm2 & _). by eexists _, _.
  - destruct (malloc_reuse fuel st size b Hs0 Hg Hbn) as (h & _ & _ & _ & Hm).
    by eexists _, _.
Qed.

(** ** [calloc] keeps the invariant *)

Lemma invariant_bytes st L g :
  invariant st L → invariant (set_bytes g st) L.
Proof.
  intros (l & Hwf & HL). exists l. split; [by apply wf_bytes|done].
Qed.

Lemma calloc_invariant fuel st L num nsize r st' :
  0 < w → 0 < hsz → invariant st L → fits (wrap (num * nsize)) →
  calloc fuel st num nsize = Ok (r, st') →
  invariant st' (if r =? NULL then L else {[r]} ∪ L).
Proof.
  intros Hw Hh Hinv Hfit Hc. unfold calloc in Hc.
  destruct ((num =? 0) || (nsize =? 0)); [by inversion Hc; subst|].
  destruct (negb (nsize =? wrap (num * nsize) / num));
    [by inversion Hc; subst|].
  apply bind_Ok in Hc as ([b st1] & Hm & Hc).
  pose proof (malloc_invariant _ _ _ _ _ _ Hw Hh Hinv Hfit Hm) as Hinv1.
  destruct (b =? NULL) eqn:Hb; inversion Hc; subst r st'.
  - done.
  - rewrite Hb. by apply invariant_bytes.
Qed.

(** ** [realloc] of a block that is too small *)

(** For a new size that fits: if [malloc] returns [NULL], so does
    [realloc], and the block is as it was; otherwise the block [malloc]
    appended is returned with the old contents, and the old block is
    flagged free and stays in the list. *)
Lemma realloc_grow fuel st l block size h :
  0 < w → 0 < hsz → wf st l → (length l < fuel)%nat →
  (block - hsz) ∈ l → hdrs st !! (block - hsz) = Some h →
  s_size h < size → fits size →
  ∃ r st1,
    malloc fuel st size = Ok (r, st1) ∧
    (r = NULL →
       realloc fuel st block size = Ok (NULL, st1) ∧ wf st1 l ∧
       hdrs st1 !! (block - hsz) = Some h ∧ bytes st1 = bytes st) ∧
    (r ≠ NULL →
       ∃ st' n,
         realloc fuel st block size = Ok (r, st') ∧
         r = brk st + hsz ∧ r ≠ block ∧
         wf st' (l ++ [r - hsz]) ∧
         (∀ i, 0 ≤ i < s_size h → bytes st' (r + i) = bytes st (block + i)) ∧
         hdrs st' !! (block - hsz) = Some (Header (s_size h) true n) ∧
         hdrs st' !! (r - hsz) = Some (Header size false NULL) ∧
         (∀ a h0, a ≠ r - hsz → a ≠ block - hsz → hdrs st !! a = Some h0 →
            ∃ m, hdrs st' !! a = Some (set_next m h0))).
Proof.
  intros Hw Hh Hwf Hlen Hin Hl Hlt Hfit.
  destruct (wf_below_brk st l _ Hh Hwf Hin) as (Hpos & h' & Hl' & [Hs0 _] & Hend).
  assert (h' = h) as -> by congruence.
  assert (realloc fuel st block size
          = '(ret, st1) ← malloc fuel st size;
            if negb (ret =? NULL) then
              h1 ← load st1 (block - hsz);
              st2 ← memcpy st1 ret block (s_size h1);
              st3 ← free fuel st2 block;
              Ok (ret, st3)
            else Ok (ret, st1)) as Hre.
  { unfold realloc.
    destruct (Z.eqb_spec block NULL) as [E|_]; [unfold NULL in E; lia|].
    destruct (Z.eqb_spec size 0); [lia|]. simpl.
    rewrite (proj2 (load_Ok _ _ _) Hl). simpl.
    destruct (Z.leb_spec size (s_size h)); [lia|done]. }
  destruct (malloc_total fuel st l size Hw Hh Hwf Hfit Hlen) as (r & st1 & Hm).
  exists r, st1. split; [done|]. rewrite Hre, Hm. simpl.
  destruct (malloc_wf _ _ _ _ _ _ Hw Hh Hwf Hfit Hm)
    as [[-> ->]|[[-> (b & hb & Hb & Hlb & Hfb & Hsz & ->)]
       |(-> & Hs & Hwf' & Hbrk & Hby & Hnew & Hold)]].
  - split; [|done]. intros _. by split_and!.
  - split; [|done]. intros _. simpl. split_and!; try done.
    + by apply wf_flag.
    + rewrite lookup_insert_ne; [done|]. intros ->.
      assert (hb = h) as -> by congruence. lia.
  - pose proof Hwf as [_ _ Hb0 _].
    split; [intros E; unfold NULL in E; lia|]. intros _.
    destruct (Z.eqb_spec (brk st + hsz) NULL) as [E|_];
      [unfold NULL in E; lia|]. simpl.
    destruct (Hold (block - hsz) h) as [n Hn]; [lia|done|].
    rewrite (proj2 (load_Ok _ _ _) Hn). simpl.
    unfold memcpy, overlap.
    destruct (Z.ltb_spec (brk st + hsz) (block + s_size h)); [lia|].
    rewrite andb_false_r. simpl.
    match goal with |- context [free fuel ?s block] => set (st2 := s) end.
    assert (hdrs st2 !! (block - hsz) = Some (set_next n h)) as Hl2 by done.
    rewrite (free_not_at_break fuel st2 block _ ltac:(unfold NULL; lia) Hl2)
      by (simpl; lia).
    simpl. eexists _, n. split; [done|].
    replace (brk st + hsz - hsz) with (brk st) by lia.
    split_and!; try done.
    + lia.
    + apply (wf_flag st2); [by apply wf_bytes|done].
    + intros i Hi. simpl. rewrite Hby.
      destruct (Z.leb_spec (brk st + hsz) (brk st + hsz + i)); [|lia].
      destruct (Z.ltb_spec (brk st + hsz + i) (brk st + hsz + s_size h));
        [|lia]. simpl. f_equal. lia.
    + simpl. apply lookup_insert_eq.
    + simpl. rewrite lookup_insert_ne by lia. done.
    + intros a h0 Ha1 Ha2 Hla. simpl. rewrite lookup_insert_ne by done.
      by apply Hold.
Qed.

Lemma realloc_invariant fuel st L block size r st' :
  0 < w → 0 < hsz → invariant st L → block = NULL ∨ block ∈ L →
  fits size → realloc fuel st block size = Ok (r, st') →
  invariant st' (realloc_live L block size r).
Proof.
  intros Hw Hh Hinv Hblock Hfit Hr. unfold realloc_live.
  destruct ((block =? NULL) || (size =? 0)) eqn:Hz.
  { unfold realloc in Hr. rewrite Hz in Hr.
    by apply (malloc_invariant fuel st L size). }
  apply orb_false_iff in Hz as [Hbn%Z.eqb_neq Hsn%Z.eqb_neq].
  destruct Hblock as [?|Hin]; [done|].
  pose proof Hinv as (l & Hwf & HL).
  destruct (HL _ Hin) as [Hbl (h & Hl & Hf)].
  destruct (Z.le_gt_cases size (s_size h)) as [Hle|Hgt].
  - rewrite (realloc_in_place _ _ _ _ h) in Hr by done.
    inversion Hr; subst r st'.
    destruct (Z.eqb_spec block NULL); [done|].
    exists l. split; [done|].
    intros b [->%elem_of_singleton|[Hb _]%elem_of_difference]%elem_of_union;
      by apply HL.
  - set (n := Nat.max fuel (S (length l))).
    apply (realloc_fuel _ n) in Hr; [|lia].
    destruct (realloc_grow n st l block size h) as (r1 & st1 & Hm & H0 & H1);
      try done; try (unfold n; lia).
    destruct (Z.eq_dec r1 NULL) as [->|Hr1].
    + destruct (H0 eq_refl) as (Hr' & _). rewrite Hr' in Hr.
      inversion Hr; subst r st'. simpl.
      by apply (malloc_invariant n st L size NULL st1).
    + destruct (H1 Hr1) as (st2 & m & Hr' & Hr1b & Hne & Hwf' & _ & _ & Hnew & Hold).
      rewrite Hr' in Hr. inversion Hr; subst r st2.
      destruct (Z.eqb_spec r1 NULL); [done|].
      exists (l ++ [r1 - hsz]). split; [done|].
      intros b [->%elem_of_singleton|[Hb Hnb]%elem_of_difference]%elem_of_union.
      * split; [apply elem_of_app; right; by left|by eexists].
      * rewrite elem_of_singleton in Hnb.
        destruct (HL _ Hb) as [Hbin (hb & Hlb & Hfb)].
        split; [apply elem_of_app; by left|].
        destruct (Hold (b - hsz) hb) as [k Hk]; try done; [|lia|].
        -- destruct (wf_below_brk st l _ Hh Hwf Hbin)
             as (_ & h1 & _ & [? ?] & ?). lia.
        -- exists (set_next k hb). by split.
Qed.

(** ** The reachable states *)

Lemma wf_initial base : 0 < base → wf (initial base) [].
Proof. by split. Qed.

(** What [print_mem_list] shows of a well-formed state: the blocks of the
    list, in order. *)
Lemma print_mem_list_from_layout fuel st l top :
  layout st l NULL top → (length l < fuel)%nat →
  ∃ bl, print_mem_list_from fuel st (hd NULL l) = Ok bl ∧ bl.*1 = l.
Proof.
  revert fuel. induction l as [|a l IH]; intros [|n]; simpl; try lia.
  - intros _ _. by exists [].
  - intros (Ha & h & Hl & _ & _ & Hn & _ & Hr) Hlen.
    destruct (Z.eqb_spec a NULL) as [E|_]; [unfold NULL in E; lia|].
    rewrite (proj2 (load_Ok _ _ _) Hl). simpl. rewrite Hn.
    destruct (IH n Hr) as (bl & -> & Hbl); [lia|]. simpl.
    exists ((a, h) :: bl). split; [done|]. by rewrite fmap_cons, Hbl.
Qed.

(** The shape of a well-formed block list: [head] is [NULL] iff [tail] is
    iff there is no block; [print_mem_list] visits the blocks of the list
    once each, in strictly increasing order of address, and ends at
    [tail], whose link is [NULL]. *)
Theorem wf_block_list st l fuel :
  0 < hsz → wf st l → (length l < fuel)%nat →
  (head st = NULL ↔ l = []) ∧ (tail st = NULL ↔ l = []) ∧
  StronglySorted Z.lt l ∧ NoDup l ∧
  (∃ bl, print_mem_list fuel st = Ok bl ∧ bl.*1 = l) ∧
  (l ≠ [] → last l = Some (tail st) ∧
            ∃ h, hdrs st !! tail st = Some h ∧ s_next h = NULL).
Proof.
  intros Hh [Hhd Htl Hbrk Hl] Hlen.
  assert (∀ a, a ∈ l → a ≠ NULL) as Hnn
    by (intros a; by apply (layout_not_NULL st l NULL (brk st))).
  split_and!.
  - rewrite Hhd. split; [|by intros ->].
    destruct l as [|a l']; [done|]. simpl. intros E.
    destruct (Hnn a); [by left|done].
  - rewrite Htl. split; [|by intros ->].
    destruct l as [|x l' _] using rev_ind; [done|].
    rewrite last_snoc. simpl. intros E.
    destruct (Hnn x); [apply elem_of_app; right; by left|done].
  - by apply (layout_sorted st l NULL (brk st)).
  - by apply (layout_NoDup st l NULL (brk st)).
  - unfold print_mem_list. rewrite Hhd.
    by apply (print_mem_list_from_layout _ _ _ (brk st)).
  - intros Hne. destruct l as [|x l' _] using rev_ind; [done|].
    rewrite last_snoc in *. simpl in Htl. rewrite Htl. split; [done|].
    apply layout_app in Hl as [_ Hl]. simpl in Hl.
    destruct Hl as (_ & h & Hlx & _ & _ & Hn & _). by exists h.
Qed.

(** With fuel for the loop, [free] of a block of the list returns. *)
Lemma free_total fuel st l block :
  0 < w → 0 < hsz → wf st l → (length l < fuel)%nat →
  (block - hsz) ∈ l → ∃ st', free fuel st block = Ok st'.
Proof.
  intros Hw Hh Hwf Hlen Hin.
  destruct (wf_below_brk st l _ Hh Hwf Hin) as (Hpos & h & Hl & _ & _).
  destruct (Z.eq_dec (block + s_size h) (brk st)) as [Hend|Hend].
  - destruct (free_release fuel st l block h Hw Hh Hwf Hlen Hin Hl Hend)
      as (l0 & st' & Hf & _). by exists st'.
  - eexists. apply (free_not_at_break _ _ _ h); try done.
    unfold NULL. lia.
Qed.

(** ** The flag of a block of the list *)

(** C10: on a well-formed state, when the first-fit scan of [malloc] finds
    a free block that is large enough, the call clears the free flag of
    that block, a block of the list, and changes nothing else, whatever
    it returns: the header keeps its size and its link, every other
    header, [head], [tail], the break and the payload bytes stay, and the
    list is as it was. *)
Theorem malloc_reuse_clears_flag fuel st l size b :
  wf st l → 0 < size → get_free_block fuel st size = Ok b → b ≠ NULL →
  ∃ r st' h,
    malloc fuel st size = Ok (r, st') ∧
    b ∈ l ∧ hdrs st !! b = Some h ∧ s_is_free h = true ∧ size ≤ s_size h ∧
    hdrs st' !! b = Some (Header (s_size h) false (s_next h)) ∧
    (∀ a, a ≠ b → hdrs st' !! a = hdrs st !! a) ∧
    head st' = head st ∧ tail st' = tail st ∧ brk st' = brk st ∧
    bytes st' = bytes st ∧ wf st' l.
Proof.
  intros Hwf Hs Hg Hb.
  destruct (malloc_reuse fuel st size b) as (h & Hl & Hf & Hsz & Hm);
    [lia|done|done|].
  eexists NULL, _, h. split; [exact Hm|]. simpl.
  split_and!; try done.
  - pose proof Hwf as [Hhd _ _ Hlay]. unfold get_free_block in Hg.
    rewrite Hhd in Hg.
    destruct (get_free_block_from_first_fit _ _ _ _ _ _ Hlay Hg)
      as [[? _]|(l1 & l2 & _ & -> & _)]; [done|].
    apply elem_of_app. right. by left.
  - apply lookup_insert_eq.
  - intros a Ha. by apply lookup_insert_ne.
  - by apply wf_flag.
Qed.

(** C9: on a well-formed state whose break is an address of the machine,
    when the payload of a block of the list does not end at the break
    (in the integers and so also as pointers of [w] bits), [free] sets
    the free flag of the block and changes nothing else: the header keeps
    its size and its link, [head], [tail], the break, the payload bytes
    and every other header stay, the list is as it was, and
    [print_mem_list] shows the same blocks in the same order, the freed
    one among them. *)
Theorem free_inner_block fuel st l block h :
  0 < hsz → wf st l → brk st < 2 ^ w →
  (block - hsz) ∈ l → hdrs st !! (block - hsz) = Some h →
  block + s_size h ≠ brk st →
  ∃ st',
    free fuel st block = Ok st' ∧
    block ≠ NULL ∧ wrap (block + s_size h) ≠ wrap (brk st) ∧
    hdrs st' !! (block - hsz) = Some (Header (s_size h) true (s_next h)) ∧
    (∀ a, a ≠ block - hsz → hdrs st' !! a = hdrs st !! a) ∧
    head st' = head st ∧ tail st' = tail st ∧ brk st' = brk st ∧
    bytes st' = bytes st ∧ wf st' l ∧
    (∀ n bl, print_mem_list n st = Ok bl →
       ∃ bl',
         print_mem_list n st' = Ok bl' ∧ bl'.*1 = bl.*1 ∧
         bl' = map (λ e, if e.1 =? block - hsz
                         then (e.1, Header (s_size e.2) true (s_next e.2))
                         else e) bl) ∧
    (∀ n, (length l < n)%nat →
       ∃ bl', print_mem_list n st' = Ok bl' ∧ bl'.*1 = l ∧
              (block - hsz) ∈ bl'.*1).
Proof.
  intros Hh Hwf Hlim Hin Hl Hne.
  destruct (wf_below_brk st l _ Hh Hwf Hin) as (Hpos & h' & Hl' & [Hs0 _] & Hend).
  assert (h' = h) as -> by congruence.
  assert (block ≠ NULL) as Hb by (unfold NULL; lia).
  pose proof (wf_flag st l (block - hsz) h true Hwf Hl) as Hwf'.
  eexists. split; [by apply (free_not_at_break _ _ _ h)|].
  simpl. split_and!; try done.
  - unfold wrap. rewrite !Z.mod_small; [done|..].
    + destruct Hwf as [_ _ Hb0 _]. lia.
    + lia.
  - apply lookup_insert_eq.
  - intros a Ha. by apply lookup_insert_ne.
  - intros n bl Hbl. eexists. split;
      [by apply print_mem_list_from_flag|]. split; [|done].
    clear. induction bl as [|[a h0] bl IH]; [done|].
    cbn [map fmap list_fmap fst snd] in *.
    destruct (a =? block - hsz); cbn [fst]; by f_equal.
  - intros n Hn. destruct Hwf' as [Hhd' _ _ Hlay'].
    destruct (print_mem_list_from_layout n _ l _ Hlay' Hn) as (bl' & Hp & E).
    exists bl'. unfold print_mem_list. rewrite Hhd'.
    split_and!; try done. by rewrite E.
Qed.

End Proofs.

(** * The states a caller can reach *)

Section Reachability.

Context {P : platform}.

Local Abbreviation w := (@word_bits P).
Local Abbreviation hsz := (@sizeof_header P).

Implicit Types (st : state) (l : list Z) (L : gset Z).

(** Well-formedness does not look at the kernel. *)
Lemma layout_same_abi (P' : platform) st l nxt top :
  same_abi (P := P) P' →
  layout (P := P') st l nxt top ↔ layout (P := P) st l nxt top.
Proof.
  intros [Ew Eh]. revert nxt top. induction l as [|a l IH]; intros nxt top;
    simpl; [done|].
  split; intros (Ha & h & Hl & H0 & H1 & Hn & Ht & Hr);
    (split; [done|]); exists h.
  - rewrite Ew, Eh in H1. rewrite Eh in Ht.
    split_and!; try done. by apply IH.
  - rewrite <- Ew, <- Eh in H1. rewrite <- Eh in Ht.
    split_and!; try done. by apply IH.
Qed.

Lemma invariant_same_abi (P' : platform) st L :
  same_abi (P := P) P' →
  invariant (P := P') st L ↔ invariant (P := P) st L.
Proof.
  intros Habi. pose proof Habi as [Ew Eh]. unfold invariant, handle_of.
  rewrite Eh. split.
  - intros (l & [H1 H2 H3 H4] & HL). exists l. split; [|done].
    split; try done. by apply (layout_same_abi P').
  - intros (l & [H1 H2 H3 H4] & HL). exists l. split; [|done].
    split; try done. by apply (layout_same_abi P').
Qed.

Lemma fits_same_abi (P' : platform) size :
  same_abi (P := P) P' → fits (P := P') size ↔ fits (P := P) size.
Proof. intros [Ew Eh]. unfold fits. by rewrite Ew, Eh. Qed.

(** Every state a caller that keeps to the contract can reach satisfies
    the invariant. *)
Theorem reachable_invariant st L :
  0 < w → 0 < hsz → reachable (P := P) st L → invariant (P := P) st L.
Proof.
  intros Hw Hh Hr. induction Hr as
    [base Hb
    |P' st L fuel size r st' Habi _ IH Hfit Hm
    |P' st L fuel num nsize r st' Habi _ IH _ _ Hfit Hc
    |P' st L fuel block size r st' Habi _ IH Hblock Hfit Hre
    |P' st L fuel block st' Habi _ IH Hblock Hf].
  - exists []. split; [by apply wf_initial|]. by intros b ?%elem_of_empty.
  - pose proof Habi as [Ew Eh]. apply (invariant_same_abi P' _ _ Habi).
    apply (malloc_invariant (P := P') fuel st L size); try done;
      try (rewrite ?Ew, ?Eh; lia).
    + by apply invariant_same_abi.
    + by apply fits_same_abi.
  - pose proof Habi as [Ew Eh]. apply (invariant_same_abi P' _ _ Habi).
    apply (calloc_invariant (P := P') fuel st L num nsize); try done;
      try (rewrite ?Ew, ?Eh; lia).
    + by apply invariant_same_abi.
    + apply fits_same_abi; [done|]. unfold wrap in *. by rewrite Ew.
  - pose proof Habi as [Ew Eh]. apply (invariant_same_abi P' _ _ Habi).
    apply (realloc_invariant (P := P') fuel st); try done;
      try (rewrite ?Ew, ?Eh; lia).
    + by apply invariant_same_abi.
    + by apply fits_same_abi.
  - pose proof Habi as [Ew Eh]. apply (invariant_same_abi P' _ _ Habi).
    apply (free_invariant (P := P') fuel st); try done;
      try (rewrite ?Ew, ?Eh; lia).
    by apply invariant_same_abi.
Qed.

(** X14: the block list of every state a caller that keeps to the
    contract can reach has the shape the data model asks for: [head] is
    [NULL] iff [tail] is iff there is no block, [print_mem_list] ends and
    shows the blocks once each in strictly increasing order of address,
    the tail has the link [NULL], and every handle the caller holds is
    the payload of a block of the list. *)
Theorem reachable_block_list st L :
  0 < w → 0 < hsz → reachable st L →
  ∃ l,
    (head st = NULL ↔ l = []) ∧ (tail st = NULL ↔ l = []) ∧
    StronglySorted Z.lt l ∧ NoDup l ∧
    (∃ bl, print_mem_list (S (length l)) st = Ok bl ∧ bl.*1 = l) ∧
    (l ≠ [] → last l = Some (tail st) ∧
              ∃ h, hdrs st !! tail st = Some h ∧ s_next h = NULL) ∧
    (∀ block, block ∈ L → (block - hsz) ∈ l).
Proof.
  intros Hw Hh Hr.
  destruct (reachable_invariant st L Hw Hh Hr) as (l & Hwf & HL).
  destruct (wf_block_list st l (S (length l)) Hh Hwf) as (?&?&?&?&?&?);
    [lia|].
  exists l. split_and!; try done. intros block Hb. by destruct (HL _ Hb).
Qed.

End Reachability.

(** * What a call changes and what it leaves alone *)

Section Frames.

Context {P : platform}.

Local Abbreviation w := word_bits.
Local Abbreviation hsz := sizeof_header.

Implicit Types (st : state) (h : header_t) (l : list Z) (fuel : nat).

(** [sbrk] moves the break and nothing else, and what it returns is the
    old break or the failure value. *)
Lemma sbrk_frame st increment b st1 :
  sbrk st increment = (b, st1) →
  hdrs st1 = hdrs st ∧ bytes st1 = bytes st ∧
  head st1 = head st ∧ tail st1 = tail st ∧
  (b = SBRK_FAILED ∨ b = brk st).
Proof.
  unfold sbrk. destruct (increment =? 0); [|destruct (refused st increment)];
    intros [= <- <-]; simpl; split_and!; try done; by (left + right).
Qed.

(** The loop of [free] writes links only. *)
Lemma free_unlink_frame fuel st tmp st' :
  free_unlink fuel st tmp = Ok st' →
  bytes st' = bytes st ∧ brk st' = brk st ∧ head st' = head st ∧
  ∀ a h, hdrs st !! a = Some h → ∃ n, hdrs st' !! a = Some (set_next n h).
Proof.
  revert st tmp. induction fuel as [|n IH]; intros st tmp; simpl; [done|].
  destruct (tmp =? NULL).
  { intros [= <-]. split_and!; try done. intros a h Ha.
    exists (s_next h). by destruct h. }
  intros H. apply bind_Ok in H as (h0 & Hl0%load_Ok & H).
  apply bind_Ok in H as (st1 & Hst1 & H).
  apply bind_Ok in H as (h1 & _ & H).
  destruct (IH _ _ H) as (Hby & Hbrk & Hhd & Hfr).
  assert (bytes st1 = bytes st ∧ brk st1 = brk st ∧ head st1 = head st ∧
          ∀ a h, hdrs st !! a = Some h →
            ∃ m, hdrs st1 !! a = Some (set_next m h)) as (E1 & E2 & E3 & E4).
  { destruct (s_next h0 =? tail st).
    - rewrite (store_Ok _ _ _ _ Hl0) in Hst1. simpl in Hst1.
      inversion Hst1; subst st1. simpl. split_and!; try done.
      intros a h Ha. destruct (Z.eq_dec a tmp) as [->|Hne].
      + exists NULL. rewrite lookup_insert_eq. congruence.
      + exists (s_next h). rewrite lookup_insert_ne by done. by destruct h.
    - inversion Hst1; subst st1. split_and!; try done.
      intros a h Ha. exists (s_next h). by destruct h. }
  split_and!; try congruence.
  intros a h Ha. destruct (E4 a h Ha) as [m Hm].
  destruct (Hfr a _ Hm) as [k Hk]. by exists k.
Qed.

(** [free] leaves the payload bytes and the recorded sizes alone, and it
    flags no block but the one it is given. *)
Lemma free_frame fuel st block st' :
  free fuel st block = Ok st' →
  bytes st' = bytes st ∧
  ∀ a h, hdrs st !! a = Some h →
    ∃ h', hdrs st' !! a = Some h' ∧ s_size h' = s_size h ∧
          (a ≠ block - hsz → s_is_free h' = s_is_free h).
Proof.
  unfold free. destruct (block =? NULL).
  { intros [= <-]. split; [done|]. intros a h Ha. by exists h. }
  rewrite sbrk_query. cbv zeta iota beta. intros H.
  apply bind_Ok in H as (h0 & Hl0%load_Ok & H).
  destruct (block + s_size h0 =? brk st).
  - apply bind_Ok in H as (st1 & Hst1 & H).
    apply bind_Ok in H as (h1 & _ & [= <-]).
    assert (bytes st1 = bytes st ∧
            ∀ a h, hdrs st !! a = Some h →
              ∃ n, hdrs st1 !! a = Some (set_next n h)) as [E1 E2].
    { destruct (head st =? tail st).
      - inversion Hst1; subst st1. split; [done|]. intros a h Ha.
        exists (s_next h). by destruct h.
      - destruct (free_unlink_frame _ _ _ _ Hst1) as (? & _ & _ & ?).
        by split. }
    destruct (sbrk st1 (to_intptr (wrap (wrap (0 - s_size h1) - hsz))))
      as [b st2] eqn:Hs.
    destruct (sbrk_frame _ _ _ _ Hs) as (Eh & Eb & _). simpl.
    rewrite Eb, Eh. split; [done|]. intros a h Ha.
    destruct (E2 a h Ha) as [n Hn]. by exists (set_next n h).
  - rewrite (store_Ok _ _ _ _ Hl0) in H. inversion H; subst st'. simpl.
    split; [done|]. intros a h Ha.
    destruct (Z.eq_dec a (block - hsz)) as [->|Hne].
    + exists (set_is_free true h0). rewrite lookup_insert_eq.
      split_and!; [done|simpl; congruence|done].
    + exists h. by rewrite lookup_insert_ne.
Qed.

(** The step of [malloc] that links the new block after the tail. *)
Lemma link_tail_frame st3 b st4 :
  (if negb (tail st3 =? NULL) then store st3 (tail st3) (set_next b)
   else Ok st3) = Ok st4 →
  bytes st4 = bytes st3 ∧
  ∀ a h, hdrs st3 !! a = Some h → ∃ n, hdrs st4 !! a = Some (set_next n h).
Proof.
  destruct (negb (tail st3 =? NULL)).
  - intros H. apply bind_Ok in H as (ht & Hlt%load_Ok & [= <-]). simpl.
    split; [done|]. intros a h Ha.
    destruct (Z.eq_dec a (tail st3)) as [->|Hne].
    + exists b. rewrite lookup_insert_eq. congruence.
    + exists (s_next h). rewrite lookup_insert_ne by done. by destruct h.
  - intros [= <-]. split; [done|]. intros a h Ha.
    exists (s_next h). by destruct h.
Qed.

(** [malloc] leaves the payload bytes alone; of the headers that are not
    at the break it keeps the size and never sets the free flag; and when
    it returns a block, that block is a new one: its header is at the old
    break, records the size asked for, is in use and is the tail. *)
Lemma malloc_frame fuel st size r st' :
  malloc fuel st size = Ok (r, st') →
  bytes st' = bytes st ∧
  (∀ a h, hdrs st !! a = Some h → a ≠ brk st →
     ∃ h', hdrs st' !! a = Some h' ∧ s_size h' = s_size h ∧
           (s_is_free h = false → s_is_free h' = false)) ∧
  (r ≠ NULL →
     r = brk st + hsz ∧ tail st' = brk st ∧
     ∃ h, hdrs st' !! brk st = Some h ∧ s_size h = size ∧
          s_is_free h = false).
Proof.
  unfold malloc. destruct (size =? 0).
  { intros [= <- <-]. split_and!; try done. intros a h Ha _. by exists h. }
  intros H. apply bind_Ok in H as (b & _ & H).
  destruct (b =? NULL); simpl in H.
  - destruct (sbrk st (to_intptr (wrap (hsz + size)))) as [blk st1] eqn:Hs.
    destruct (sbrk_frame _ _ _ _ Hs) as (Eh & Eb & Ehd & Etl & Hblk).
    destruct (Z.eqb_spec blk SBRK_FAILED) as [->|Hnf].
    { inversion H; subst r st'. rewrite Eh, Eb. split_and!; try done.
      intros a h Ha _. by exists h. }
    destruct Hblk as [Hx | Hx]; [done|]. subst blk.
    apply bind_Ok in H as (st4 & Hst4 & [= <- <-]).
    apply link_tail_frame in Hst4 as (B4 & F4).
    set (hn := Header size false NULL) in *.
    assert (∀ a h, <[brk st := hn]> (hdrs st) !! a = Some h →
              ∃ n, hdrs st4 !! a = Some (set_next n h)) as F.
    { intros a h Ha. apply F4.
      destruct (head st1 =? NULL); simpl; by rewrite Eh. }
    simpl. split_and!.
    + rewrite B4. destruct (head st1 =? NULL); simpl; by rewrite Eb.
    + intros a h Ha Hne.
      destruct (F a h) as [n Hn]; [by rewrite lookup_insert_ne|].
      by exists (set_next n h).
    + intros _. split_and!; try done.
      destruct (F (brk st) hn) as [n Hn]; [by rewrite lookup_insert_eq|].
      by exists (set_next n hn).
  - apply bind_Ok in H as (st1 & Hst1 & [= <- <-]).
    apply bind_Ok in Hst1 as (h0 & Hl0%load_Ok & [= <-]). simpl.
    split_and!; try done. intros a h Ha _.
    destruct (Z.eq_dec a b) as [->|Hne].
    + exists (set_is_free false h0). rewrite lookup_insert_eq.
      split_and!; [done|simpl; congruence|done].
    + exists h. by rewrite lookup_insert_ne.
Qed.

(** ** The block [malloc] returns *)

(** X1: on a well-formed state and for a size that fits, when [malloc]
    returns a block, the scan had found nothing to reuse and the block is
    a new one: its header is at the old break, which is no block of the
    list and lies above the end of every block of the list; the header
    records the size asked for, is in use, ends the list and is the new
    tail; the break is at the end of the new payload and the payload
    bytes are as they were. *)
Theorem malloc_returns_new_block fuel st l size r st' :
  0 < w → 0 < hsz → wf st l → fits size →
  malloc fuel st size = Ok (r, st') → r ≠ NULL →
  get_free_block fuel st size = Ok NULL ∧
  r = brk st + hsz ∧ (r - hsz ∉ l) ∧
  (∀ a h, a ∈ l → hdrs st !! a = Some h → a + hsz + s_size h ≤ r - hsz) ∧
  hdrs st' !! (r - hsz) = Some (Header size false NULL) ∧
  tail st' = r - hsz ∧ wf st' (l ++ [r - hsz]) ∧
  brk st' = r + size ∧ bytes st' = bytes st.
Proof.
  intros Hw Hh Hwf Hfit Hm Hr.
  assert (get_free_block fuel st size = Ok NULL) as Hg.
  { unfold malloc in Hm. destruct (size =? 0); [by inversion Hm|].
    apply bind_Ok in Hm as (b & Hg & Hm).
    destruct (Z.eqb_spec b NULL) as [->|Hb]; [done|]. simpl in Hm.
    apply bind_Ok in Hm as (st1 & _ & [= E _]). by rewrite E in Hr. }
  destruct (malloc_wf _ _ _ _ _ _ Hw Hh Hwf Hfit Hm)
    as [[-> _]|[[-> _]|(-> & Hs & Hwf' & Hbrk & Hby & Hnew & Hold)]];
    [done|done|].
  replace (brk st + hsz - hsz) with (brk st) by lia.
  assert (∀ a h, a ∈ l → hdrs st !! a = Some h →
            a + hsz + s_size h ≤ brk st) as Hbelow.
  { intros a h Ha Hl.
    destruct (wf_below_brk st l a Hh Hwf Ha) as (_ & h' & Hl' & _ & Hend).
    assert (h' = h) as -> by congruence. done. }
  split_and!; try done.
  - intros Ha.
    destruct (wf_below_brk st l _ Hh Hwf Ha) as (_ & h & _ & [? _] & ?). lia.
  - destruct Hwf' as [_ Htl _ _]. by rewrite last_snoc in Htl.
  - lia.
Qed.

(** X2: on a well-formed state, when [calloc] returns a block, the block
    is a new one, above the end of every block of the list: its header
    records the product [num * nsize] itself, not a wrapped value, is in
    use and ends the list, the break is at the end of the zeroed payload,
    and no payload byte of a block that was there has changed. *)
Theorem calloc_block_size fuel st l num nsize block st' :
  0 < w → 0 < hsz → wf st l →
  0 ≤ num < 2 ^ w → 0 ≤ nsize < 2 ^ w → fits (wrap (num * nsize)) →
  calloc fuel st num nsize = Ok (block, st') → block ≠ NULL →
  block = brk st + hsz ∧ (block - hsz ∉ l) ∧
  (∀ a h, a ∈ l → hdrs st !! a = Some h →
     a + hsz + s_size h ≤ block - hsz) ∧
  hdrs st' !! (block - hsz) = Some (Header (num * nsize) false NULL) ∧
  wf st' (l ++ [block - hsz]) ∧ brk st' = block + num * nsize ∧
  ∀ a h i, a ∈ l → hdrs st !! a = Some h → 0 ≤ i < s_size h →
    bytes st' (a + hsz + i) = bytes st (a + hsz + i).
Proof.
  intros Hw Hh Hwf Hn Hs Hfit Hc Hb. unfold calloc in Hc.
  destruct (Z.eqb_spec num 0) as [|Hn0]; [simpl in Hc; congruence|].
  destruct (Z.eqb_spec nsize 0) as [|Hs0]; [simpl in Hc; congruence|].
  simpl in Hc.
  destruct (Z.eqb_spec nsize (wrap (num * nsize) / num)) as [Hd|];
    [|simpl in Hc; congruence].
  simpl in Hc. apply bind_Ok in Hc as ([r st1] & Hm & Hc).
  destruct (Z.eqb_spec r NULL); [congruence|].
  inversion Hc; subst block st'.
  assert (wrap (num * nsize) = num * nsize) as Hprod
    by (apply mul_no_overflow; (done || lia)).
  rewrite Hprod in *.
  destruct (malloc_wf _ _ _ _ _ _ Hw Hh Hwf Hfit Hm)
    as [[-> _]|[[-> _]|(-> & Hsz & Hwf' & Hbrk & Hby & Hnew & Hold)]];
    [done|done|].
  replace (brk st + hsz - hsz) with (brk st) by lia.
  assert (∀ a h, a ∈ l → hdrs st !! a = Some h →
            a + hsz + s_size h ≤ brk st) as Hbelow.
  { intros a h Ha Hl.
    destruct (wf_below_brk st l a Hh Hwf Ha) as (_ & h' & Hl' & _ & Hend).
    assert (h' = h) as -> by congruence. done. }
  split_and!; try done.
  - intros Ha.
    destruct (wf_below_brk st l _ Hh Hwf Ha) as (_ & h & _ & [? _] & ?). lia.
  - by apply wf_bytes.
  - simpl. lia.
  - intros a h i Ha Hl Hi. simpl. rewrite Hby.
    pose proof (Hbelow a h Ha Hl).
    destruct (Z.leb_spec (brk st + hsz) (a + hsz + i)); [lia|done].
Qed.

(** ** Requests for nothing *)

(** X3: a request for zero bytes and a [NULL] block change nothing:
    [malloc(0)] returns [NULL], [free(NULL)] returns, and [realloc] to
    size zero returns [NULL] without giving the block back; [realloc] of
    [NULL] is [malloc]. *)
Theorem zero_and_null_requests fuel st block size :
  malloc fuel st 0 = Ok (NULL, st) ∧
  free fuel st NULL = Ok st ∧
  realloc fuel st block 0 = Ok (NULL, st) ∧
  realloc fuel st NULL size = malloc fuel st size.
Proof.
  split_and!; try done.
  unfold realloc. rewrite orb_true_r. done.
Qed.

(** ** The frame of a call *)

(** What [malloc] keeps of a well-formed state: the blocks of the list
    stay in the list with their sizes, no block in use is flagged free,
    and the only block that can join the list is the one at the old
    break, which is then the block returned. *)
Lemma malloc_keeps fuel st l size r st' :
  0 < w → 0 < hsz → wf st l → fits size →
  malloc fuel st size = Ok (r, st') →
  bytes st' = bytes st ∧
  (r ≠ NULL → r = brk st + hsz) ∧
  ∃ l',
    wf st' l' ∧
    (∀ a h, a ∈ l → hdrs st !! a = Some h →
       a ∈ l' ∧
       ∃ h', hdrs st' !! a = Some h' ∧ s_size h' = s_size h ∧
             (s_is_free h = false → s_is_free h' = false)) ∧
    (∀ a, a ∈ l' → a ∉ l →
       a = brk st ∧ r = brk st + hsz ∧
       hdrs st' !! a = Some (Header size false NULL)).
Proof.
  intros Hw Hh Hwf Hfit Hm.
  destruct (malloc_frame _ _ _ _ _ Hm) as (Hby & Hold & Hnew).
  split; [done|]. split; [intros Hr; by destruct (Hnew Hr)|].
  assert (∀ a h, a ∈ l → hdrs st !! a = Some h →
            ∃ h', hdrs st' !! a = Some h' ∧ s_size h' = s_size h ∧
                  (s_is_free h = false → s_is_free h' = false)) as Hkeep.
  { intros a h Ha Hl. apply Hold; [done|]. intros ->.
    destruct (wf_below_brk st l _ Hh Hwf Ha) as (_ & h1 & _ & [? _] & ?).
    lia. }
  destruct (malloc_wf _ _ _ _ _ _ Hw Hh Hwf Hfit Hm)
    as [[-> ->]|[[-> (b & h & Hb & Hl & Hf & Hsz & ->)]
       |(-> & Hs & Hwf' & Hbrk & _ & Hhdr & _)]].
  - exists l. split_and!; [done| |done]. intros a h Ha Hl. split; [done|].
    by exists h.
  - exists l. split_and!; [by apply wf_flag| |done].
    intros a ha Ha Hla. split; [done|]. by apply Hkeep.
  - exists (l ++ [brk st]). split_and!; [done| |].
    + intros a h Ha Hl. split; [apply elem_of_app; by left|by apply Hkeep].
    + intros a [?|Ha%list_elem_of_singleton]%elem_of_app Hnot; [done|].
      by subst a.
Qed.

(** What [free] keeps of a well-formed state: no block joins the list,
    and every block but the one given back stays in the list with its
    size and its flag. *)
Lemma free_keeps fuel st l block st' :
  0 < w → 0 < hsz → wf st l → block = NULL ∨ (block - hsz) ∈ l →
  free fuel st block = Ok st' →
  bytes st' = bytes st ∧
  ∃ l',
    wf st' l' ∧ (∀ a, a ∈ l' → a ∈ l) ∧
    ∀ a h, a ∈ l → hdrs st !! a = Some h → a ≠ block - hsz →
      a ∈ l' ∧
      ∃ h', hdrs st' !! a = Some h' ∧ s_size h' = s_size h ∧
            s_is_free h' = s_is_free h.
Proof.
  intros Hw Hh Hwf Hblock Hf.
  destruct (free_frame _ _ _ _ Hf) as (Hby & Hfr). split; [done|].
  destruct Hblock as [->|Hin].
  { unfold free in Hf. simpl in Hf. inversion Hf; subst st'.
    exists l. split_and!; try done. intros a h Ha Hl _. split; [done|].
    by exists h. }
  destruct (free_wf _ _ _ _ _ Hw Hh Hwf Hin Hf) as (_ & _ & Hcase).
  destruct Hcase as [(Hwf' & _)|(l0 & h0 & -> & Hwf' & _)].
  - exists l. split_and!; try done. intros a h Ha Hl Hne. split; [done|].
    destruct (Hfr a h Hl) as (h' & ? & ? & Hflag). exists h'.
    split_and!; try done. by apply Hflag.
  - exists l0. split_and!; [done| |].
    + intros a Ha. apply elem_of_app. by left.
    + intros a h [Ha|Ha%list_elem_of_singleton]%elem_of_app Hl Hne; [|done].
      split; [done|].
      destruct (Hfr a h Hl) as (h' & ? & ? & Hflag). exists h'.
      split_and!; try done. by apply Hflag.
Qed.

(** What a call keeps of a well-formed state when the sizes fit and the
    block passed, if any, is [NULL] or a block of the list. *)
Lemma run_call_keeps fuel st l c r st' :
  0 < w → 0 < hsz → wf st l →
  match c with
  | Malloc size => fits size
  | Calloc num nsize => fits (wrap (num * nsize))
  | Realloc block size => fits size ∧ (block = NULL ∨ (block - hsz) ∈ l)
  | Free block => block = NULL ∨ (block - hsz) ∈ l
  end →
  run_call fuel st c = Ok (r, st') →
  ∃ l',
    wf st' l' ∧
    (∀ a h, a ∈ l → hdrs st !! a = Some h →
       handle_arg c ≠ Some (a + hsz) →
       a ∈ l' ∧
       ∃ h', hdrs st' !! a = Some h' ∧ s_size h' = s_size h ∧
             (s_is_free h = false → s_is_free h' = false)) ∧
    (∀ a h i, a ∈ l → hdrs st !! a = Some h → 0 ≤ i < s_size h →
       bytes st' (a + hsz + i) = bytes st (a + hsz + i)) ∧
    (∀ a, a ∈ l' → a ∉ l → a = brk st ∧ r = brk st + hsz).
Proof.
  intros Hw Hh Hwf Hc Hrun.
  assert (∀ a h, a ∈ l → hdrs st !! a = Some h →
            a + hsz + s_size h ≤ brk st) as Hbelow.
  { intros a h Ha Hl.
    destruct (wf_below_brk st l a Hh Hwf Ha) as (_ & h' & Hl' & _ & Hend).
    assert (h' = h) as -> by congruence. done. }
  assert (∀ size r1 st1, fits size → malloc fuel st size = Ok (r1, st1) →
    ∃ l',
      wf st1 l' ∧
      (∀ a h, a ∈ l → hdrs st !! a = Some h →
         a ∈ l' ∧
         ∃ h', hdrs st1 !! a = Some h' ∧ s_size h' = s_size h ∧
               (s_is_free h = false → s_is_free h' = false)) ∧
      (∀ a h i, a ∈ l → hdrs st !! a = Some h → 0 ≤ i < s_size h →
         bytes st1 (a + hsz + i) = bytes st (a + hsz + i)) ∧
      (∀ a, a ∈ l' → a ∉ l → a = brk st ∧ r1 = brk st + hsz)) as Hmal.
  { intros size r1 st1 Hfit Hm.
    destruct (malloc_keeps _ _ _ _ _ _ Hw Hh Hwf Hfit Hm)
      as (Hby & _ & l' & Hwf' & Hk & Hnew).
    exists l'. split_and!; try done.
    - intros a h i _ _ _. by rewrite Hby.
    - intros a Ha Hnot. destruct (Hnew a Ha Hnot) as (? & ? & _). done. }
  destruct c as [size|num nsize|block size|block]; simpl in Hrun.
  - destruct (Hmal _ _ _ Hc Hrun) as (l' & ? & Hk & ? & ?).
    exists l'. split_and!; try done. intros a h Ha Hl _. by apply Hk.
  - unfold calloc in Hrun.
    destruct ((num =? 0) || (nsize =? 0)).
    { inversion Hrun; subst r st'. exists l. split_and!; try done.
      intros a h Ha Hl _. split; [done|]. by exists h. }
    destruct (negb (nsize =? wrap (num * nsize) / num)).
    { inversion Hrun; subst r st'. exists l. split_and!; try done.
      intros a h Ha Hl _. split; [done|]. by exists h. }
    apply bind_Ok in Hrun as ([b st1] & Hm & Hrun).
    destruct (malloc_keeps _ _ _ _ _ _ Hw Hh Hwf Hc Hm)
      as (Hby & Hb & l' & Hwf' & Hk & Hnew).
    exists l'.
    destruct (Z.eqb_spec b NULL) as [->|Hbn]; inversion Hrun; subst r st'.
    + split_and!; try done.
      * intros a h Ha Hl _. by apply Hk.
      * intros a h i _ _ _. by rewrite Hby.
      * intros a Ha Hnot. destruct (Hnew a Ha Hnot) as (? & ? & _). done.
    + split_and!.
      * by apply wf_bytes.
      * intros a h Ha Hl _. by apply Hk.
      * intros a h i Ha Hl Hi. simpl. rewrite Hby, (Hb Hbn).
        pose proof (Hbelow a h Ha Hl).
        destruct (Z.leb_spec (brk st + hsz) (a + hsz + i)); [lia|done].
      * intros a Ha Hnot. destruct (Hnew a Ha Hnot) as (? & ? & _). done.
  - destruct Hc as [Hfit Hblock]. unfold realloc in Hrun.
    destruct ((block =? NULL) || (size =? 0)) eqn:Hz.
    { destruct (Hmal _ _ _ Hfit Hrun) as (l' & ? & Hk & ? & ?).
      exists l'. split_and!; try done. intros a h Ha Hl _. by apply Hk. }
    apply orb_false_iff in Hz as [Hbn%Z.eqb_neq _].
    destruct Hblock as [?|Hin]; [done|].
    apply bind_Ok in Hrun as (h0 & Hl0%load_Ok & Hrun).
    destruct (Z.leb_spec size (s_size h0)).
    { inversion Hrun; subst r st'. exists l. split_and!; try done.
      intros a h Ha Hl _. split; [done|]. by exists h. }
    apply bind_Ok in Hrun as ([ret st1] & Hm & Hrun).
    destruct (malloc_keeps _ _ _ _ _ _ Hw Hh Hwf Hfit Hm)
      as (Hby & Hret & l1 & Hwf1 & Hk & Hnew).
    destruct (Z.eqb_spec ret NULL) as [->|Hrn]; simpl in Hrun.
    { inversion Hrun; subst r st'. exists l1. split_and!; try done.
      - intros a h Ha Hl _. by apply Hk.
      - intros a h i _ _ _. by rewrite Hby.
      - intros a Ha Hnot. destruct (Hnew a Ha Hnot) as (? & ? & _). done. }
    apply bind_Ok in Hrun as (h1 & Hl1%load_Ok & Hrun).
    apply bind_Ok in Hrun as (st2 & Hcp & Hrun).
    apply bind_Ok in Hrun as (st3 & Hfr & [= <- <-]).
    unfold memcpy in Hcp. destruct (overlap _ _ _); [done|].
    inversion Hcp; subst st2.
    destruct (Hk _ _ Hin Hl0) as (Hin1 & h0' & Hl0' & Hs0 & _).
    assert (h0' = h1) as -> by congruence.
    match type of Hfr with free _ ?s _ = _ =>
      destruct (free_keeps fuel s l1 block st3 Hw Hh)
        as (Hby3 & l3 & Hwf3 & Hsub & Hk3) end;
      [by apply wf_bytes|by right|done|].
    exists l3. split_and!; [done| | |].
    + intros a h Ha Hl Harg.
      destruct (Hk a h Ha Hl) as (Ha1 & h' & Hl' & Hs' & Hf').
      destruct (Hk3 a h' Ha1 Hl') as (Ha3 & h3 & Hl3 & Hs3 & Hf3).
      { intros E. apply Harg. simpl. f_equal. lia. }
      split; [done|]. exists h3. split_and!; [done|congruence|].
      intros Hfree. rewrite Hf3. by apply Hf'.
    + intros a h i Ha Hl Hi. rewrite Hby3. simpl. rewrite Hby, (Hret Hrn).
      pose proof (Hbelow a h Ha Hl).
      destruct (Z.leb_spec (brk st + hsz) (a + hsz + i)); [lia|done].
    + intros a Ha Hnot. destruct (Hnew a (Hsub a Ha) Hnot) as (? & ? & _).
      done.
  - apply bind_Ok in Hrun as (st1 & Hf & [= <- <-]).
    destruct (free_keeps _ _ _ _ _ Hw Hh Hwf Hc Hf)
      as (Hby & l' & Hwf' & Hsub & Hk).
    exists l'. split_and!; [done| | |].
    + intros a h Ha Hl Harg.
      destruct (Hk a h Ha Hl) as (Ha1 & h' & Hl' & Hs' & Hf').
      { intros E. apply Harg. simpl. f_equal. lia. }
      split; [done|]. exists h'. split_and!; try done. congruence.
    + intros a h i _ _ _. by rewrite Hby.
    + intros a Ha Hnot. by destruct (Hnot (Hsub a Ha)).
Qed.


(** X5: on a well-formed state, for sizes that fit and a block that is
    [NULL] or of the list, a call leaves the other blocks as they are: a
    block of the list that is not the one handed to [free] or [realloc]
    stays in the list, which stays well formed, keeps its recorded size
    (no block is split or shrunk), and, if it was in use, stays in
    use. *)
Theorem call_keeps_other_blocks fuel st l c r st' a h :
  0 < w → 0 < hsz → wf st l →
  match c with
  | Malloc size => fits size
  | Calloc num nsize => fits (wrap (num * nsize))
  | Realloc block size => fits size ∧ (block = NULL ∨ (block - hsz) ∈ l)
  | Free block => block = NULL ∨ (block - hsz) ∈ l
  end →
  run_call fuel st c = Ok (r, st') →
  a ∈ l → hdrs st !! a = Some h → handle_arg c ≠ Some (a + hsz) →
  ∃ l' h',
    wf st' l' ∧ a ∈ l' ∧ hdrs st' !! a = Some h' ∧
    s_size h' = s_size h ∧ (s_is_free h = false → s_is_free h' = false).
Proof.
  intros Hw Hh Hwf Hc Hrun Ha Hl Harg.
  destruct (run_call_keeps _ _ _ _ _ _ Hw Hh Hwf Hc Hrun)
    as (l' & Hwf' & Hk & _).
  destruct (Hk a h Ha Hl Harg) as (Ha' & h' & Hl' & Hs & Hf).
  by exists l', h'.
Qed.

End Frames.

(** * The block list at work *)

Section Geometry.

Context {P : platform}.

Local Abbreviation w := word_bits.
Local Abbreviation hsz := sizeof_header.

Implicit Types (st : state) (h : header_t) (l : list Z) (fuel : nat).

(** ** First fit *)

Lemma reusable_false h size :
  s_is_free h && (size <=? s_size h) = false
  ↔ ¬ (s_is_free h = true ∧ size ≤ s_size h).
Proof.
  rewrite andb_false_iff, Z.leb_gt. split.
  - intros [Hf|Hs] [Hf' Hs']; [congruence|lia].
  - intros Hn. destruct (s_is_free h); [|by left].
    right. destruct (Z.lt_ge_cases (s_size h) size); [done|].
    destruct Hn. by split.
Qed.

(** X6: on a well-formed list the scan of [get_free_block] ends, and it is
    first fit: it returns the first block from [head] that is free and
    large enough, passing over blocks that are in use or too small, and
    it returns [NULL] exactly when the list has no such block. *)
Theorem get_free_block_first_fit fuel st l size :
  wf st l → (length l < fuel)%nat →
  ∃ r,
    get_free_block fuel st size = Ok r ∧
    ((r = NULL ∧
      ∀ a h, a ∈ l → hdrs st !! a = Some h →
        ¬ (s_is_free h = true ∧ size ≤ s_size h))
     ∨ (∃ l1 l2 h,
          l = l1 ++ r :: l2 ∧ hdrs st !! r = Some h ∧
          s_is_free h = true ∧ size ≤ s_size h ∧
          ∀ a h', a ∈ l1 → hdrs st !! a = Some h' →
            ¬ (s_is_free h' = true ∧ size ≤ s_size h'))).
Proof.
  intros Hwf Hlen.
  destruct (get_free_block_wf fuel st l size Hwf Hlen) as (r & Hg & _).
  exists r. split; [done|]. destruct Hwf as [Hhd _ _ Hl].
  unfold get_free_block in Hg. rewrite Hhd in Hg.
  destruct (get_free_block_from_first_fit _ _ _ _ _ _ Hl Hg)
    as [[-> Hall]|(l1 & l2 & h & -> & Hlr & Ht & Hall)].
  - left. split; [done|]. intros a h Ha Hla.
    apply reusable_false. by apply (Hall a).
  - right. exists l1, l2, h.
    apply andb_true_iff in Ht as [Hf Hs%Z.leb_le]. split_and!; try done.
    intros a h' Ha Hla. apply reusable_false. by apply (Hall a).
Qed.

(** ** What [print_mem_list] prints *)

(** Every line [print_mem_list] prints is a header of the heap. *)
Lemma print_mem_list_from_headers n st curr bl a h :
  print_mem_list_from n st curr = Ok bl → (a, h) ∈ bl →
  hdrs st !! a = Some h.
Proof.
  revert curr bl. induction n as [|n IH]; intros curr bl; simpl; [done|].
  destruct (curr =? NULL); [by intros [= <-] ?%elem_of_nil|].
  intros H. apply bind_Ok in H as (h0 & Hl%load_Ok & H).
  apply bind_Ok in H as (rest & Hrest & [= <-]).
  intros [[= -> ->]|Hin]%elem_of_cons; [done|]. by apply (IH _ _ Hrest).
Qed.

(** X7: on a well-formed state [print_mem_list] ends once it has fuel for
    every block: it prints one line per block of the list, from [head] on
    in strictly increasing order of address, each line with the header
    stored at that address, and the last line has the link [NULL]. *)
Theorem print_mem_list_well_formed fuel st l :
  0 < hsz → wf st l → (length l < fuel)%nat →
  ∃ bl,
    print_mem_list fuel st = Ok bl ∧ bl.*1 = l ∧
    StronglySorted Z.lt bl.*1 ∧
    (∀ a h, (a, h) ∈ bl → hdrs st !! a = Some h) ∧
    (∀ a h, last bl = Some (a, h) → a = tail st ∧ s_next h = NULL).
Proof.
  intros Hh Hwf Hlen. pose proof Hwf as [Hhd Htl Hbrk Hl].
  destruct (print_mem_list_from_layout fuel st l (brk st) Hl Hlen)
    as (bl & Hp & Hbl).
  rewrite <- Hhd in Hp. exists bl. split_and!; try done.
  - rewrite Hbl. by apply (layout_sorted st l NULL (brk st)).
  - intros a h. by apply (print_mem_list_from_headers fuel st (head st)).
  - intros a h Hlast.
    assert (hdrs st !! a = Some h) as Hla.
    { apply (print_mem_list_from_headers _ _ _ _ _ _ Hp).
      by apply last_Some_elem_of. }
    apply last_Some in Hlast as [bl' ->].
    rewrite fmap_app in Hbl. simpl in Hbl. subst l.
    rewrite last_snoc in Htl. simpl in Htl. split; [done|].
    apply layout_app in Hl as [_ Hl]. simpl in Hl.
    destruct Hl as (_ & h' & Hl' & _ & _ & Hn & _). congruence.
Qed.

(** ** [malloc] and [free] back to back *)

(** Two layouts of the same addresses whose headers differ by links only
    have the same headers. *)
Lemma layout_same_headers st st' l nxt top top' :
  layout st l nxt top → layout st' l nxt top' →
  (∀ a h, a ∈ l → hdrs st !! a = Some h →
     ∃ n, hdrs st' !! a = Some (set_next n h)) →
  ∀ a, a ∈ l → hdrs st' !! a = hdrs st !! a.
Proof.
  induction l as [|b l IH]; simpl; [by intros _ _ _ a ?%elem_of_nil|].
  intros (_ & h & Hl & _ & _ & Hn & _ & Hr)
         (_ & h' & Hl' & _ & _ & Hn' & _ & Hr') Hfr a
         [->|Ha]%elem_of_cons.
  - destruct (Hfr b h) as [n Hb]; [by left|done|].
    rewrite Hl, Hl'. f_equal.
    assert (h' = set_next n h) as -> by congruence.
    destruct h. unfold set_next. simpl in *. congruence.
  - apply IH; try done. intros c hc Hc. apply Hfr. by right.
Qed.

(** X8: a block that [malloc] appends and [free] gets back at once leaves
    no trace: the block is cut off again, and [head], [tail], the break,
    the payload bytes and the header of every block of the list are what
    they were before the two calls. *)
Theorem malloc_then_free_restores fuel st l size :
  0 < w → 0 < hsz → wf st l → (S (length l) < fuel)%nat →
  0 < size → fits size →
  get_free_block fuel st size = Ok NULL →
  refused st (hsz + size) = false →
  ∃ st1 st2,
    malloc fuel st size = Ok (brk st + hsz, st1) ∧
    free fuel st1 (brk st + hsz) = Ok st2 ∧
    head st2 = head st ∧ tail st2 = tail st ∧ brk st2 = brk st ∧
    bytes st2 = bytes st ∧ wf st2 l ∧
    ∀ a, a ∈ l → hdrs st2 !! a = hdrs st !! a.
Proof.
  intros Hw Hh Hwf Hlen Hs Hfit Hg Href.
  destruct (malloc_grow fuel st l size Hw Hh Hwf Hs Hfit Hg Href)
    as (st1 & Hm & Hwf1 & Hbrk1 & Hby1 & Hnew & Hold).
  set (b := brk st) in *.
  assert (b + hsz - hsz = b) as Eb by lia.
  destruct (free_release fuel st1 (l ++ [b]) (b + hsz)
              (Header size false NULL) Hw Hh Hwf1)
    as (l0 & st2 & Hf & Hl0 & _ & Hbrk2 & Hwf2 & _ & Hby2 & Hfr & _).
  { rewrite length_app. simpl. lia. }
  { rewrite Eb. apply elem_of_app. right. by left. }
  { by rewrite Eb. }
  { simpl. lia. }
  rewrite Eb in Hl0. apply app_inj_tail in Hl0 as [<- _].
  exists st1, st2. pose proof Hwf as [Hhd Htl _ Hl].
  pose proof Hwf2 as [Hhd2 Htl2 _ Hl2].
  split_and!; try done; try congruence.
  - simpl in Hbrk2. lia.
  - apply (layout_same_headers st st2 l NULL (brk st) (brk st2)); try done.
    intros a h Ha Hla.
    destruct (Hold a h) as [n Hn]; [|done|].
    + intros ->. destruct (wf_below_brk st l b Hh Hwf Ha)
        as (_ & h1 & _ & [? ?] & ?). fold b in H1. lia.
    + destruct (Hfr a _ Hn) as [m Hm']. by exists m.
Qed.

(** ** [realloc] that has to move the block *)

(** X9: for a new size that fits, with no block to reuse and a kernel
    that grants the request, [realloc] of a block that is too small
    appends a block of the new size at the break and returns it; the
    first bytes of the new block are those of the old one, up to the old
    size; the old block is flagged free and stays in the list with its
    size. *)
Theorem realloc_moves_block fuel st l block size h :
  0 < w → 0 < hsz → wf st l → (length l < fuel)%nat →
  (block - hsz) ∈ l → hdrs st !! (block - hsz) = Some h →
  s_size h < size → fits size →
  get_free_block fuel st size = Ok NULL →
  refused st (hsz + size) = false →
  ∃ st' n,
    realloc fuel st block size = Ok (brk st + hsz, st') ∧
    brk st + hsz ≠ block ∧
    wf st' (l ++ [brk st]) ∧
    (∀ i, 0 ≤ i < s_size h →
       bytes st' (brk st + hsz + i) = bytes st (block + i)) ∧
    hdrs st' !! (block - hsz) = Some (Header (s_size h) true n) ∧
    hdrs st' !! brk st = Some (Header size false NULL).
Proof.
  intros Hw Hh Hwf Hlen Hin Hl Hlt Hfit Hg Href.
  assert (0 < size) as Hs.
  { destruct (wf_below_brk st l _ Hh Hwf Hin) as (_ & h' & Hl' & [? _] & _).
    assert (h' = h) as -> by congruence. lia. }
  destruct (malloc_grow fuel st l size Hw Hh Hwf Hs Hfit Hg Href)
    as (st1 & Hm & _).
  destruct (realloc_grow fuel st l block size h Hw Hh Hwf Hlen Hin Hl Hlt Hfit)
    as (r & st1' & Hm' & _ & Hmove).
  rewrite Hm in Hm'. inversion Hm'; subst r st1'.
  pose proof Hwf as [_ _ Hb0 _].
  destruct Hmove as (st' & n & Hre & _ & Hne & Hwf' & Hcopy & Hold & Hnew & _);
    [unfold NULL; lia|].
  replace (brk st + hsz - hsz) with (brk st) in * by lia.
  exists st', n. by split_and!.
Qed.

(** X10: on a well-formed state, when the scan finds a block to reuse,
    [realloc] of a block of the list that is too small returns [NULL]:
    nothing is copied, the old block is left as it is, and the block that
    was found, another block of the list, has its flag cleared although
    no caller gets it; nothing else changes. *)
Theorem realloc_starved_by_reuse fuel st l block size h b :
  0 < hsz → wf st l → (block - hsz) ∈ l → 0 < size →
  hdrs st !! (block - hsz) = Some h → s_size h < size →
  get_free_block fuel st size = Ok b → b ≠ NULL →
  ∃ hb st',
    hdrs st !! b = Some hb ∧ s_is_free hb = true ∧ size ≤ s_size hb ∧
    b ∈ l ∧ b ≠ block - hsz ∧
    realloc fuel st block size = Ok (NULL, st') ∧
    st' = set_hdrs (<[b := Header (s_size hb) false (s_next hb)]> (hdrs st))
            st ∧
    hdrs st' !! b = Some (Header (s_size hb) false (s_next hb)) ∧
    hdrs st' !! (block - hsz) = Some h ∧ wf st' l.
Proof.
  intros Hh Hwf Hin Hs Hl Hlt Hg Hbn.
  destruct (wf_below_brk st l _ Hh Hwf Hin) as (Hpos & _).
  destruct (malloc_reuse fuel st size b) as (hb & Hlb & Hfb & Hsz & Hm);
    [lia|done|done|].
  assert (b ≠ block - hsz) as Hne.
  { intros ->. assert (hb = h) as -> by congruence. lia. }
  eexists hb, _. split_and!; try done.
  - pose proof Hwf as [Hhd _ _ Hlay]. unfold get_free_block in Hg.
    rewrite Hhd in Hg.
    destruct (get_free_block_from_first_fit _ _ _ _ _ _ Hlay Hg)
      as [[? _]|(l1 & l2 & _ & -> & _)]; [done|].
    apply elem_of_app. right. by left.
  - unfold realloc.
    destruct (Z.eqb_spec block NULL) as [E|_]; [unfold NULL in E; lia|].
    destruct (Z.eqb_spec size 0); [lia|]. simpl.
    rewrite (proj2 (load_Ok _ _ _) Hl). simpl.
    destruct (Z.leb_spec size (s_size h)); [lia|]. rewrite Hm. done.
  - simpl. apply lookup_insert_eq.
  - simpl. by rewrite lookup_insert_ne.
  - by apply (wf_flag st l b hb false).
Qed.

(** ** Blocks do not overlap *)

(** Of two blocks of the list, the lower one ends before the header of
    the higher one starts. *)
Lemma layout_apart st l nxt top a1 a2 h1 :
  0 < hsz → layout st l nxt top → a1 ∈ l → a2 ∈ l → a1 < a2 →
  hdrs st !! a1 = Some h1 → a1 + hsz + s_size h1 ≤ a2.
Proof.
  intros Hh. induction l as [|b l IH]; simpl; [by intros _ ?%elem_of_nil|].
  intros (Hb & h & Hl & H0 & H1 & Hn & Ht & Hr)
         [->|Ha1]%elem_of_cons [->|Ha2]%elem_of_cons Hlt Hl1; try lia.
  - assert (h1 = h) as -> by congruence.
    destruct (layout_bounds st l nxt top a2 Hh Hr Ha2) as [Hle _].
    destruct l; simpl in *; [by apply elem_of_nil in Ha2|lia].
  - destruct (layout_bounds st l nxt top a1 Hh Hr Ha1) as [Hle _].
    destruct l; simpl in *; [by apply elem_of_nil in Ha1|lia].
  - by apply IH.
Qed.

(** A state is well formed with one list only. *)
Lemma layout_unique st l l' top top' :
  layout st l NULL top → layout st l' NULL top' →
  hd NULL l = hd NULL l' → l = l'.
Proof.
  revert l'. induction l as [|a l IH]; intros [|a' l']; simpl; try done.
  - intros _ (Ha & _) E. unfold NULL in E. lia.
  - intros (Ha & _) _ E. unfold NULL in E. lia.
  - intros (_ & h & Hl & _ & _ & Hn & _ & Hr)
           (_ & h' & Hl' & _ & _ & Hn' & _ & Hr') ->.
    assert (h' = h) as -> by congruence.
    f_equal. apply IH; try done. congruence.
Qed.

Lemma wf_unique st l l' : wf st l → wf st l' → l = l'.
Proof.
  intros [Hhd _ _ Hl] [Hhd' _ _ Hl'].
  apply (layout_unique st l l' (brk st) (brk st)); congruence.
Qed.

(** ** Blocks lie back to back *)

Lemma tight_app st l1 l2 top :
  tight st (l1 ++ l2) top ↔ tight st l1 (hd top l2) ∧ tight st l2 top.
Proof.
  induction l1 as [|a l1 IH]; simpl; [tauto|].
  assert (hd top (l1 ++ l2) = hd (hd top l2) l1) as -> by (by destruct l1).
  rewrite IH. tauto.
Qed.

(** [tight] reads the sizes of the blocks of the list only. *)
Lemma tight_frame st st' l top :
  (∀ a h, a ∈ l → hdrs st !! a = Some h →
     ∃ h', hdrs st' !! a = Some h' ∧ s_size h' = s_size h) →
  tight st l top → tight st' l top.
Proof.
  induction l as [|b l IH]; simpl; [done|].
  intros Hfr [(h & Hl & Hend) Hr]. split.
  - destruct (Hfr b h) as (h' & Hl' & Hs); [by left|done|].
    exists h'. split; [done|]. by rewrite Hs.
  - apply IH; [|done]. intros a ha Ha. apply Hfr. by right.
Qed.

Lemma malloc_tight fuel st l size r st' :
  0 < w → 0 < hsz → wf st l → tight st l (brk st) → fits size →
  malloc fuel st size = Ok (r, st') →
  ∃ l', wf st' l' ∧ tight st' l' (brk st') ∧ ∀ a, a ∈ l → a ∈ l'.
Proof.
  intros Hw Hh Hwf Ht Hfit Hm.
  destruct (malloc_wf _ _ _ _ _ _ Hw Hh Hwf Hfit Hm)
    as [[-> ->]|[[-> (b & h & Hb & Hl & Hf & Hsz & ->)]
       |(-> & Hs & Hwf' & Hbrk & Hby & Hnew & Hold)]].
  - by exists l.
  - exists l. split_and!; [by apply wf_flag| |done]. simpl.
    apply (tight_frame st); [|done]. intros a ha Ha Hla. simpl.
    destruct (Z.eq_dec a b) as [->|Hne].
    + exists (set_is_free false h). rewrite lookup_insert_eq.
      split; [done|]. simpl. congruence.
    + exists ha. by rewrite lookup_insert_ne.
  - exists (l ++ [brk st]). split_and!; [done| |].
    + apply tight_app. simpl. split.
      * apply (tight_frame st); [|done]. intros a ha Ha Hla.
        destruct (Hold a ha) as [n Hn]; [|done|].
        -- intros ->. destruct (wf_below_brk st l _ Hh Hwf Ha)
             as (_ & h1 & _ & [? ?] & ?). lia.
        -- by exists (set_next n ha).
      * split; [|done]. eexists. split; [done|]. simpl. lia.
    + intros a Ha. apply elem_of_app. by left.
Qed.

Lemma free_tight fuel st l block st' :
  0 < w → 0 < hsz → wf st l → tight st l (brk st) → (block - hsz) ∈ l →
  free fuel st block = Ok st' →
  ∃ l', wf st' l' ∧ tight st' l' (brk st').
Proof.
  intros Hw Hh Hwf Ht Hin Hf.
  destruct (free_wf _ _ _ _ _ Hw Hh Hwf Hin Hf) as (_ & Hfr & Hcase).
  destruct Hcase as [(Hwf' & Hbrk & h & Hl & _ & Hl')
                    |(l0 & h & -> & Hwf' & Hnot & Hl & Hend & Hbrk)].
  - exists l. split; [done|]. rewrite Hbrk.
    apply (tight_frame st); [|done]. intros a ha Ha Hla.
    destruct (Z.eq_dec a (block - hsz)) as [->|Hne].
    + exists (set_is_free true h). split; [done|]. simpl. congruence.
    + destruct (Hfr a ha Hne Hla) as [n Hn]. by exists (set_next n ha).
  - exists l0. split; [done|].
    replace (brk st') with (block - hsz) by lia.
    apply tight_app in Ht as [Ht _]. simpl in Ht.
    apply (tight_frame st); [|done]. intros a ha Ha Hla.
    destruct (Hfr a ha) as [n Hn]; [by intros ->|done|].
    by exists (set_next n ha).
Qed.

Lemma tight_bytes st l top g : tight st l top → tight (set_bytes g st) l top.
Proof.
  apply tight_frame. intros a h _ Hl. by exists h.
Qed.

Lemma calloc_tight fuel st l num nsize r st' :
  0 < w → 0 < hsz → wf st l → tight st l (brk st) →
  fits (wrap (num * nsize)) →
  calloc fuel st num nsize = Ok (r, st') →
  ∃ l', wf st' l' ∧ tight st' l' (brk st').
Proof.
  intros Hw Hh Hwf Ht Hfit Hc. unfold calloc in Hc.
  destruct ((num =? 0) || (nsize =? 0));
    [inversion Hc; subst; by exists l|].
  destruct (negb (nsize =? wrap (num * nsize) / num));
    [inversion Hc; subst; by exists l|].
  apply bind_Ok in Hc as ([b st1] & Hm & Hc).
  destruct (malloc_tight _ _ _ _ _ _ Hw Hh Hwf Ht Hfit Hm)
    as (l' & Hwf' & Ht' & _).
  exists l'. destruct (b =? NULL); inversion Hc; subst r st'; [done|].
  split; [by apply wf_bytes|]. by apply tight_bytes.
Qed.

Lemma realloc_tight fuel st l block size r st' :
  0 < w → 0 < hsz → wf st l → tight st l (brk st) →
  block = NULL ∨ (block - hsz) ∈ l → fits size →
  realloc fuel st block size = Ok (r, st') →
  ∃ l', wf st' l' ∧ tight st' l' (brk st').
Proof.
  intros Hw Hh Hwf Ht Hblock Hfit Hr. unfold realloc in Hr.
  destruct ((block =? NULL) || (size =? 0)) eqn:Hz.
  { destruct (malloc_tight _ _ _ _ _ _ Hw Hh Hwf Ht Hfit Hr)
      as (l' & ? & ? & _). by exists l'. }
  apply orb_false_iff in Hz as [Hbn%Z.eqb_neq _].
  destruct Hblock as [?|Hin]; [done|].
  apply bind_Ok in Hr as (h & Hl & Hr).
  destruct (size <=? s_size h); [inversion Hr; subst; by exists l|].
  apply bind_Ok in Hr as ([ret st1] & Hm & Hr).
  destruct (malloc_tight _ _ _ _ _ _ Hw Hh Hwf Ht Hfit Hm)
    as (l1 & Hwf1 & Ht1 & Hsub).
  destruct (negb (ret =? NULL)); [|inversion Hr; subst; by exists l1].
  apply bind_Ok in Hr as (h1 & _ & Hr).
  apply bind_Ok in Hr as (st2 & Hcp & Hr).
  apply bind_Ok in Hr as (st3 & Hfr & [= <- <-]).
  unfold memcpy in Hcp. destruct (overlap _ _ _); [done|].
  inversion Hcp; subst st2.
  match type of Hfr with free _ ?s _ = _ =>
    apply (free_tight fuel s l1 block) end; try done.
  - by apply wf_bytes.
  - by apply tight_bytes.
  - by apply Hsub.
Qed.

(** ** [malloc] that appends *)

(** X15: on a well-formed state, for a size that fits, with no block to
    reuse and a kernel that grants the request, [malloc] appends a block
    at the break: the break rises by the header and the size, the new
    header records the size, is in use and ends the list, the old tail
    gets the link to it, and every other header and every payload byte
    stays as it was. *)
Theorem malloc_appends fuel st l size :
  0 < w → 0 < hsz → wf st l → 0 < size → fits size →
  get_free_block fuel st size = Ok NULL →
  refused st (hsz + size) = false →
  ∃ st',
    malloc fuel st size = Ok (brk st + hsz, st') ∧
    wf st' (l ++ [brk st]) ∧ brk st' = brk st + (hsz + size) ∧
    bytes st' = bytes st ∧
    hdrs st' !! brk st = Some (Header size false NULL) ∧
    ∀ l1 t, l = l1 ++ [t] →
      (∀ a, a ∈ l1 → hdrs st' !! a = hdrs st !! a) ∧
      ∃ ht, hdrs st !! t = Some ht ∧
            hdrs st' !! t = Some (set_next (brk st) ht).
Proof.
  intros Hw Hh Hwf Hs Hfit Hg Href.
  destruct (malloc_grow fuel st l size Hw Hh Hwf Hs Hfit Hg Href)
    as (st' & Hm & Hwf' & Hbrk & Hby & Hnew & Hold).
  exists st'. split_and!; try done. intros l1 t ->.
  assert (∀ a, a ∈ l1 ++ [t] → a ≠ brk st) as Hfresh.
  { intros a Ha ->. destruct (wf_below_brk st _ _ Hh Hwf Ha)
      as (_ & h & _ & [? ?] & ?). lia. }
  destruct Hwf as [_ _ _ Hl]. destruct Hwf' as [_ _ _ Hl'].
  apply layout_app in Hl as [Hl1 Hlt].
  apply layout_app in Hl' as [Hl' _].
  apply layout_app in Hl' as [Hl1' Hlt']. simpl in *. split.
  - apply (layout_same_headers st st' l1 t t t); try done.
    intros a h Ha Hla. apply Hold; [|done].
    apply Hfresh, elem_of_app. by left.
  - destruct Hlt as (_ & ht & Hlt & _).
    destruct Hlt' as (_ & ht' & Hlt' & _ & _ & Hn' & _).
    exists ht. split; [done|].
    destruct (Hold t ht) as [n Hn]; [|done|].
    { apply Hfresh, elem_of_app. right. by left. }
    assert (ht' = set_next n ht) as -> by congruence.
    simpl in Hn'. by subst n.
Qed.

(** ** Calls return *)

(** X16: on a well-formed state a call returns once it has fuel for the
    list: for a size that fits and, where a block is passed, [NULL] or a
    block of the list, no call reads a header that is not there and no
    loop runs on. *)
Theorem call_returns fuel st l c :
  0 < w → 0 < hsz → wf st l → (length l < fuel)%nat →
  match c with
  | Malloc size => fits size
  | Calloc num nsize => fits (wrap (num * nsize))
  | Realloc block size => fits size ∧ (block = NULL ∨ (block - hsz) ∈ l)
  | Free block => block = NULL ∨ (block - hsz) ∈ l
  end →
  ∃ r st', run_call fuel st c = Ok (r, st').
Proof.
  intros Hw Hh Hwf Hlen Hc.
  destruct c as [size|num nsize|block size|block]; simpl.
  - by apply (malloc_total fuel st l).
  - unfold calloc. destruct ((num =? 0) || (nsize =? 0)); [by eexists _, _|].
    destruct (negb (nsize =? wrap (num * nsize) / num)); [by eexists _, _|].
    destruct (malloc_total fuel st l _ Hw Hh Hwf Hc Hlen) as (r & st1 & ->).
    simpl. destruct (r =? NULL); by eexists _, _.
  - destruct Hc as [Hfit Hblock]. unfold realloc.
    destruct ((block =? NULL) || (size =? 0)) eqn:Hz;
      [by apply (malloc_total fuel st l)|].
    apply orb_false_iff in Hz as [Hbn%Z.eqb_neq Hsn%Z.eqb_neq].
    destruct Hblock as [?|Hin]; [done|].
    destruct (wf_below_brk st l _ Hh Hwf Hin) as (_ & h & Hl & _ & _).
    rewrite (proj2 (load_Ok _ _ _) Hl). simpl.
    destruct (Z.leb_spec size (s_size h)); [by eexists _, _|].
    destruct (realloc_grow fuel st l block size h)
      as (r & st1 & Hm & H0 & H1); try done.
    assert (realloc fuel st block size
            = '(ret, st1) ← malloc fuel st size;
              if negb (ret =? NULL) then
                h1 ← load st1 (block - hsz);
                st2 ← memcpy st1 ret block (s_size h1);
                st3 ← free fuel st2 block;
                Ok (ret, st3)
              else Ok (ret, st1)) as Hre.
    { unfold realloc.
      destruct (Z.eqb_spec block NULL); [done|].
      destruct (Z.eqb_spec size 0); [done|]. simpl.
      rewrite (proj2 (load_Ok _ _ _) Hl). simpl.
      destruct (Z.leb_spec size (s_size h)); [lia|done]. }
    rewrite <- Hre.
    destruct (Z.eq_dec r NULL) as [->|Hr].
    + destruct (H0 eq_refl) as (-> & _). by eexists _, _.
    + destruct (H1 Hr) as (st' & n & -> & _). by eexists _, _.
  - destruct Hc as [->|Hin]; [by eexists _, _|].
    destruct (free_total fuel st l block Hw Hh Hwf Hlen Hin) as [st' ->].
    by eexists _, _.
Qed.

End Geometry.

(** * What a caller that keeps to the contract can rely on *)

Section Guarantees.

Context {P : platform}.

Local Abbreviation w := (@word_bits P).
Local Abbreviation hsz := (@sizeof_header P).

Implicit Types (st : state) (l : list Z) (L : gset Z).

Lemma wf_same_abi (P' : platform) st l :
  same_abi (P := P) P' → wf (P := P') st l ↔ wf (P := P) st l.
Proof.
  intros Habi. split; intros [H1 H2 H3 H4]; split; try done.
  - by apply (layout_same_abi (P := P) P' st l NULL (brk st) Habi).
  - by apply (layout_same_abi (P := P) P' st l NULL (brk st) Habi).
Qed.

Lemma tight_same_abi (P' : platform) st l top :
  same_abi (P := P) P' →
  tight (P := P') st l top ↔ tight (P := P) st l top.
Proof.
  intros [_ Eh]. induction l as [|a l IH]; simpl; [done|].
  rewrite IH, Eh. done.
Qed.

(** In every reachable state the blocks lie back to back and the last one
    ends at the break. *)
Lemma reachable_tight st L :
  0 < w → 0 < hsz → reachable (P := P) st L →
  ∃ l, wf (P := P) st l ∧ tight (P := P) st l (brk st).
Proof.
  intros Hw Hh Hr. induction Hr as
    [base Hb
    |P' st L fuel size r st' Habi Hr0 IH Hfit Hm
    |P' st L fuel num nsize r st' Habi Hr0 IH _ _ Hfit Hc
    |P' st L fuel block size r st' Habi Hr0 IH Hblock Hfit Hre
    |P' st L fuel block st' Habi Hr0 IH Hblock Hf].
  - exists []. split; [by apply wf_initial|done].
  - destruct IH as (l & Hwf & Ht). pose proof Habi as [Ew Eh].
    destruct (malloc_tight (P := P') fuel st l size r st') as (l' & ? & ? & _);
      try done; try (rewrite ?Ew, ?Eh; lia).
    + by apply (wf_same_abi P' st l Habi).
    + by apply (tight_same_abi P' st l (brk st) Habi).
    + by apply (fits_same_abi P' _ Habi).
    + exists l'. split; [by apply (wf_same_abi P' st' l' Habi)
                        |by apply (tight_same_abi P' st' l' (brk st') Habi)].
  - destruct IH as (l & Hwf & Ht). pose proof Habi as [Ew Eh].
    destruct (calloc_tight (P := P') fuel st l num nsize r st') as (l' & ? & ?);
      try done; try (rewrite ?Ew, ?Eh; lia).
    + by apply (wf_same_abi P' st l Habi).
    + by apply (tight_same_abi P' st l (brk st) Habi).
    + apply (fits_same_abi P' _ Habi). unfold wrap in *. by rewrite Ew.
    + exists l'. split; [by apply (wf_same_abi P' st' l' Habi)
                        |by apply (tight_same_abi P' st' l' (brk st') Habi)].
  - destruct IH as (l & Hwf & Ht). pose proof Habi as [Ew Eh].
    destruct (reachable_invariant st L Hw Hh Hr0) as (l0 & Hwf0 & HL).
    assert (l0 = l) as -> by (by apply (wf_unique (P := P) st)).
    destruct (realloc_tight (P := P') fuel st l block size r st')
      as (l' & ? & ?); try done; try (rewrite ?Ew, ?Eh; lia).
    + by apply (wf_same_abi P' st l Habi).
    + by apply (tight_same_abi P' st l (brk st) Habi).
    + destruct Hblock as [?|Hin]; [by left|right].
      rewrite Eh. by destruct (HL _ Hin).
    + by apply (fits_same_abi P' _ Habi).
    + exists l'. split; [by apply (wf_same_abi P' st' l' Habi)
                        |by apply (tight_same_abi P' st' l' (brk st') Habi)].
  - destruct IH as (l & Hwf & Ht). pose proof Habi as [Ew Eh].
    destruct Hblock as [->|Hin].
    { unfold free in Hf. simpl in Hf. inversion Hf; subst st'. by exists l. }
    destruct (reachable_invariant st L Hw Hh Hr0) as (l0 & Hwf0 & HL).
    assert (l0 = l) as -> by (by apply (wf_unique (P := P) st)).
    destruct (free_tight (P := P') fuel st l block st') as (l' & ? & ?);
      try done; try (rewrite ?Ew, ?Eh; lia).
    + by apply (wf_same_abi P' st l Habi).
    + by apply (tight_same_abi P' st l (brk st) Habi).
    + rewrite Eh. by destruct (HL _ Hin).
    + exists l'. split; [by apply (wf_same_abi P' st' l' Habi)
                        |by apply (tight_same_abi P' st' l' (brk st') Habi)].
Qed.

(** X11: in every state a caller that keeps to the contract can reach,
    the region has no gap: the blocks of the list lie back to back, each
    ending where the header of the next one starts, and the payload of
    the tail ends exactly at the break. *)
Theorem reachable_no_gap st L :
  0 < w → 0 < hsz → reachable (P := P) st L →
  ∃ l,
    wf (P := P) st l ∧ tight (P := P) st l (brk st) ∧
    (l ≠ [] → ∃ h, hdrs st !! tail st = Some h ∧
                   tail st + hsz + s_size h = brk st).
Proof.
  intros Hw Hh Hr. destruct (reachable_tight st L Hw Hh Hr) as (l & Hwf & Ht).
  exists l. split_and!; try done. intros Hne.
  destruct l as [|x l' _] using rev_ind; [done|].
  destruct Hwf as [_ Htl _ _]. rewrite last_snoc in Htl. simpl in Htl.
  apply tight_app in Ht as [_ Ht]. simpl in Ht. rewrite Htl. tauto.
Qed.

(** X12: giving back the block that was allocated last always returns
    its memory to the kernel: in a reachable state, [free] of a handle
    whose block is the tail cuts the block off the list and lowers the
    break to the address of its header. *)
Theorem free_of_tail_releases st L block :
  0 < w → 0 < hsz → reachable (P := P) st L →
  block ∈ L → tail st = block - hsz →
  ∃ l0 st',
    wf (P := P) st (l0 ++ [block - hsz]) ∧
    (∀ fuel, (length l0 + 1 < fuel)%nat →
       free (P := P) fuel st block = Ok st') ∧
    brk st' = block - hsz ∧ wf (P := P) st' l0 ∧ (block - hsz ∉ l0).
Proof.
  intros Hw Hh Hr Hin Htail.
  destruct (reachable_tight st L Hw Hh Hr) as (l & Hwf & Ht).
  destruct (reachable_invariant st L Hw Hh Hr) as (l' & Hwf' & HL).
  assert (l' = l) as -> by (by apply (wf_unique (P := P) st)).
  destruct (HL _ Hin) as [Hbl (h & Hl & _)].
  pose proof Hwf as [_ Htl _ _].
  destruct l as [|x l0 _] using rev_ind; [by apply elem_of_nil in Hbl|].
  rewrite last_snoc in Htl. simpl in Htl.
  assert (x = block - hsz) as -> by congruence.
  apply tight_app in Ht as [_ Ht]. simpl in Ht.
  destruct Ht as [(h' & Hl' & Hend) _].
  assert (h' = h) as -> by congruence.
  destruct (free_release (P := P) (S (length (l0 ++ [block - hsz]))) st
              (l0 ++ [block - hsz]) block h Hw Hh Hwf)
    as (l1 & st' & Hf & Hl1 & _ & Hbrk & Hwf1 & Hnot & _); try done;
    [lia|lia|].
  apply app_inj_tail in Hl1 as [<- _].
  exists l0, st'. split_and!; try done; [|lia].
  intros fuel Hlen. apply (free_fuel _ _ _ _ _ Hf).
  rewrite length_app. simpl. lia.
Qed.

(** X13: the blocks a caller holds never overlap: in a reachable state,
    two handles the caller holds belong to two blocks in use, the payload
    of the lower one ends before the header of the higher one starts, and
    both end at the break or before. *)
Theorem reachable_handles_apart st L b1 b2 :
  0 < w → 0 < hsz → reachable (P := P) st L →
  b1 ∈ L → b2 ∈ L → b1 < b2 →
  ∃ h1 h2,
    hdrs st !! (b1 - hsz) = Some h1 ∧ s_is_free h1 = false ∧
    hdrs st !! (b2 - hsz) = Some h2 ∧ s_is_free h2 = false ∧
    0 < b1 - hsz ∧ b1 + s_size h1 ≤ b2 - hsz ∧ b2 + s_size h2 ≤ brk st.
Proof.
  intros Hw Hh Hr H1 H2 Hlt.
  destruct (reachable_invariant st L Hw Hh Hr) as (l & Hwf & HL).
  destruct (HL _ H1) as [Hin1 (h1 & Hl1 & Hf1)].
  destruct (HL _ H2) as [Hin2 (h2 & Hl2 & Hf2)].
  exists h1, h2.
  destruct (wf_below_brk (P := P) st l _ Hh Hwf Hin1) as (Hpos & _).
  destruct (wf_below_brk (P := P) st l _ Hh Hwf Hin2)
    as (_ & h2' & Hl2' & _ & Hend).
  assert (h2' = h2) as -> by congruence.
  pose proof Hwf as [_ _ _ Hl].
  pose proof (layout_apart (P := P) st l NULL (brk st) (b1 - hsz) (b2 - hsz)
                h1 Hh Hl Hin1 Hin2 ltac:(lia) Hl1).
  split_and!; try done; lia.
Qed.

End Guarantees.

(** * The program on LP64 *)

Example heap_used_blocks :
  print_mem_list 8 heap_used
  = Ok [(4096, Header 20 false 4140); (4140, Header 12 false NULL)]
  ∧ head heap_used = 4096 ∧ tail heap_used = 4140 ∧ brk heap_used = 4176.
Proof. by vm_compute. Qed.

Example heap_freed_blocks :
  print_mem_list 8 heap_freed
  = Ok [(4096, Header 20 true 4140); (4140, Header 12 false NULL)]
  ∧ head heap_freed = 4096 ∧ tail heap_freed = 4140 ∧ brk heap_freed = 4176.
Proof. by vm_compute. Qed.

Example heap_pair_blocks :
  print_mem_list 8 heap_pair
  = Ok [(4096, Header 16 false 4136); (4136, Header 16 false NULL)]
  ∧ head heap_pair = 4096 ∧ tail heap_pair = 4136 ∧ brk heap_pair = 4176.
Proof. by vm_compute. Qed.

Lemma heap_used_wf : wf (P := lp64) heap_used [4096; 4140].
Proof. wf_by_evaluation. Qed.

Lemma heap_freed_wf : wf (P := lp64) heap_freed [4096; 4140].
Proof. wf_by_evaluation. Qed.

Lemma heap_pair_wf : wf (P := lp64) heap_pair [4096; 4136].
Proof. wf_by_evaluation. Qed.

(** ** The reuse path of [malloc] *)

(** C1, on the program as it is: in [heap_freed] the scan for 20 bytes
    finds the free block at 4096, and [malloc] clears the flag of that
    block but returns [NULL], not the payload address 4120 of the block. *)
Theorem malloc_reuse_returns_NULL :
  get_free_block 8 heap_freed 20 = Ok 4096 ∧
  ∃ st', malloc (P := lp64) 8 heap_freed 20 = Ok (NULL, st') ∧
         hdrs st' !! 4096 = Some (Header 20 false 4140) ∧
         NULL ≠ 4096 + sizeof_header (platform := lp64).
Proof.
  split; [by vm_compute|]. eexists.
  split; [vm_compute; reflexivity|]. by vm_compute.
Qed.

Lemma malloc_reuse_clears_flag_witness :
  ∃ r st' h,
    malloc (P := lp64) 8 heap_freed 20 = Ok (r, st') ∧
    4096 ∈ [4096; 4140] ∧
    hdrs heap_freed !! 4096 = Some h ∧ s_is_free h = true ∧
    20 ≤ s_size h ∧
    hdrs st' !! 4096 = Some (Header (s_size h) false (s_next h)) ∧
    (∀ a, a ≠ 4096 → hdrs st' !! a = hdrs heap_freed !! a) ∧
    head st' = head heap_freed ∧ tail st' = tail heap_freed ∧
    brk st' = brk heap_freed ∧ bytes st' = bytes heap_freed ∧
    wf (P := lp64) st' [4096; 4140].
Proof.
  apply (malloc_reuse_clears_flag (P := lp64) 8 heap_freed [4096; 4140]
           20 4096);
    [exact heap_freed_wf | lia | by vm_compute | by vm_compute].
Defined.

(** ** Calls that fail *)

Lemma malloc_out_of_memory_witness :
  malloc (P := lp64_exhausted) 8 (initial 4096) 16 = Ok (NULL, initial 4096).
Proof.
  apply (malloc_out_of_memory (P := lp64_exhausted) 8 (initial 4096) 16);
    [lia | by vm_compute | by vm_compute].
Defined.

Lemma calloc_zero_or_overflow_witness :
  calloc (P := lp64) 8 heap_used (2 ^ 63) 2 = Ok (NULL, heap_used).
Proof.
  apply (calloc_zero_or_overflow (P := lp64) 8 heap_used (2 ^ 63) 2);
    [by vm_compute | by vm_compute | by vm_compute |].
  right; right; left. by vm_compute.
Defined.

(** ** Calls that succeed *)

Lemma calloc_zeroed_witness :
  bytes heap_used (4164 + 0) = x00 ∧ bytes heap_used (4164 + 11) = x00.
Proof.
  split;
    apply (calloc_zeroed (P := lp64) 8
             (after (P := lp64) 8 [Malloc 20] 4096) 3 4 4164 heap_used);
    by vm_compute.
Defined.

Lemma realloc_fits_in_place_witness :
  realloc (P := lp64) 8 heap_used 4120 10 = Ok (4120, heap_used).
Proof.
  apply (realloc_fits_in_place (P := lp64) 8 heap_used 4120 10
           (Header 20 false 4140));
    [by vm_compute | lia | by vm_compute | by vm_compute].
Defined.

(** ** [free] on LP64 *)

Lemma free_at_break_witness :
  ∃ l0 st',
    free (P := lp64) 8 heap_used 4164 = Ok st' ∧
    [4096; 4140] = l0 ++ [4164 - 24] ∧ tail heap_used = 4164 - 24 ∧
    brk st' = brk heap_used - (24 + 12) ∧
    wf (P := lp64) st' l0 ∧ (4164 - 24 ∉ l0) ∧
    bytes st' = bytes heap_used ∧
    (head heap_used = 4164 - 24 →
       l0 = [] ∧ head st' = NULL ∧ tail st' = NULL) ∧
    (head heap_used ≠ 4164 - 24 →
       ∃ l1 p hp,
         l0 = l1 ++ [p] ∧ hdrs heap_used !! p = Some hp ∧
         s_next hp = 4164 - 24 ∧
         hdrs st' !! p = Some (set_next NULL hp) ∧
         tail st' = p ∧ head st' = head heap_used ∧
         ∀ a, a ≠ p → hdrs st' !! a = hdrs heap_used !! a).
Proof.
  apply (free_at_break (P := lp64) 8 heap_used [4096; 4140] 4164
           (Header 12 false NULL));
    [by vm_compute | by vm_compute | exact heap_used_wf | simpl; lia
    | | by vm_compute | by vm_compute].
  apply elem_of_cons. right. by left.
Defined.

Lemma free_inner_block_witness :
  ∃ st',
    free (P := lp64) 8 heap_used 4120 = Ok st' ∧
    4120 ≠ NULL ∧
    wrap (P := lp64) (4120 + 20) ≠ wrap (P := lp64) (brk heap_used) ∧
    hdrs st' !! (4120 - 24) = Some (Header 20 true 4140) ∧
    (∀ a, a ≠ 4120 - 24 → hdrs st' !! a = hdrs heap_used !! a) ∧
    head st' = head heap_used ∧ tail st' = tail heap_used ∧
    brk st' = brk heap_used ∧ bytes st' = bytes heap_used ∧
    wf (P := lp64) st' [4096; 4140] ∧
    (∀ n bl, print_mem_list n heap_used = Ok bl →
       ∃ bl',
         print_mem_list n st' = Ok bl' ∧ bl'.*1 = bl.*1 ∧
         bl' = map (λ e, if e.1 =? 4120 - 24
                         then (e.1, Header (s_size e.2) true (s_next e.2))
                         else e) bl) ∧
    (∀ n, (length [4096; 4140] < n)%nat →
       ∃ bl', print_mem_list n st' = Ok bl' ∧ bl'.*1 = [4096; 4140] ∧
              (4120 - 24) ∈ bl'.*1).
Proof.
  apply (free_inner_block (P := lp64) 8 heap_used [4096; 4140] 4120
           (Header 20 false 4140));
    [by vm_compute | exact heap_used_wf | by vm_compute
    | | by vm_compute | by vm_compute].
  by left.
Defined.

(** ** Requests that overflow *)

(** C5, on the program as it is: three calls of [malloc] from the initial
    state, the second for [2 ^ 64 - 32] bytes, leave a list whose
    addresses are not in increasing order.  The second call computes
    [24 + (2 ^ 64 - 32) = 2 ^ 64 - 8], which [sbrk] reads as [-8]: the
    break goes down by 8 and the third block is put below the second. *)
Theorem malloc_overflow_breaks_order :
  ∃ st bl,
    run_calls (P := lp64) 8 (initial 4096)
      [Malloc 16; Malloc (2 ^ 64 - 32); Malloc 16]
    = Ok ([4120; 4160; 4152], st) ∧
    print_mem_list 8 st = Ok bl ∧
    bl.*1 = [4096; 4136; 4128] ∧
    tail st = 4128 ∧ brk st = 4168 ∧
    ¬ StronglySorted Z.lt bl.*1.
Proof.
  eexists _, _. split; [vm_compute; reflexivity|].
  split; [vm_compute; reflexivity|].
  split_and!; try by vm_compute.
  intros Hs. apply StronglySorted_inv in Hs as [Hs _].
  apply StronglySorted_inv in Hs as [_ Hs].
  apply Forall_inv in Hs. vm_compute in Hs. discriminate.
Qed.

(** C4, on the program as it is: in [heap_pair], [realloc] of the block at
    4120 to [2 ^ 64 - 64] bytes gets the block 4200 from [malloc], which
    passed [2 ^ 64 - 40] to [sbrk] and so lowered the break by 40, onto
    the end of the old block.  [free] then takes the old block for the
    last one: it cuts the new block off the list and lowers the break
    again.  The old block stays in the list and in use, and the block
    that is returned is not in the list. *)
Theorem realloc_overflow_keeps_old_block :
  ∃ st',
    realloc (P := lp64) 8 heap_pair 4120 (2 ^ 64 - 64) = Ok (4200, st') ∧
    print_mem_list 8 st'
    = Ok [(4096, Header 16 false 4136); (4136, Header 16 false NULL)] ∧
    tail st' = 4136 ∧ brk st' = 4096.
Proof.
  eexists. split; [vm_compute; reflexivity|]. by vm_compute.
Qed.

(** ** A reachable state *)

Example heap_used_reachable :
  reachable (P := lp64) heap_used ({[4164]} ∪ ({[4120]} ∪ ∅)).
Proof.
  assert (same_abi (P := lp64) lp64) as Habi by done.
  assert (reachable (P := lp64) (after (P := lp64) 8 [Malloc 20] 4096)
            ({[4120]} ∪ ∅)) as H1.
  { apply (reach_malloc lp64 (initial 4096) ∅ 8 20 4120); try done;
      try (by apply reach_initial); by vm_compute. }
  apply (reach_calloc lp64 _ _ 8 3 4 4164 heap_used Habi H1);
    by vm_compute.
Qed.

(** ** More runs on LP64 *)


Lemma heap_single_wf :
  wf (P := lp64) (after (P := lp64) 8 [Malloc 20] 4096) [4096].
Proof. wf_by_evaluation. Qed.

Lemma malloc_returns_new_block_witness :
  get_free_block 8 heap_pair 16 = Ok NULL ∧
  4200 = brk heap_pair + 24 ∧ (4200 - 24 ∉ [4096; 4136]) ∧
  (∀ a h, a ∈ [4096; 4136] → hdrs heap_pair !! a = Some h →
     a + 24 + s_size h ≤ 4200 - 24) ∧
  hdrs (after (P := lp64) 8 [Malloc 16; Malloc 16; Malloc 16] 4096)
    !! (4200 - 24) = Some (Header 16 false NULL) ∧
  tail (after (P := lp64) 8 [Malloc 16; Malloc 16; Malloc 16] 4096)
  = 4200 - 24 ∧
  wf (P := lp64)
    (after (P := lp64) 8 [Malloc 16; Malloc 16; Malloc 16] 4096)
    ([4096; 4136] ++ [4200 - 24]) ∧
  brk (after (P := lp64) 8 [Malloc 16; Malloc 16; Malloc 16] 4096)
  = 4200 + 16 ∧
  bytes (after (P := lp64) 8 [Malloc 16; Malloc 16; Malloc 16] 4096)
  = bytes heap_pair.
Proof.
  apply (malloc_returns_new_block (P := lp64) 8 heap_pair [4096; 4136] 16
           4200
           (after (P := lp64) 8 [Malloc 16; Malloc 16; Malloc 16] 4096));
    [by vm_compute | by vm_compute | exact heap_pair_wf | by vm_compute
    | by vm_compute | by vm_compute].
Defined.

Lemma calloc_block_size_witness :
  4164 = brk (after (P := lp64) 8 [Malloc 20] 4096) + 24 ∧
  (4164 - 24 ∉ [4096]) ∧
  (∀ a h, a ∈ [4096] →
     hdrs (after (P := lp64) 8 [Malloc 20] 4096) !! a = Some h →
     a + 24 + s_size h ≤ 4164 - 24) ∧
  hdrs heap_used !! (4164 - 24) = Some (Header (3 * 4) false NULL) ∧
  wf (P := lp64) heap_used ([4096] ++ [4164 - 24]) ∧
  brk heap_used = 4164 + 3 * 4 ∧
  ∀ a h i, a ∈ [4096] →
    hdrs (after (P := lp64) 8 [Malloc 20] 4096) !! a = Some h →
    0 ≤ i < s_size h →
    bytes heap_used (a + 24 + i)
    = bytes (after (P := lp64) 8 [Malloc 20] 4096) (a + 24 + i).
Proof.
  apply (calloc_block_size (P := lp64) 8
           (after (P := lp64) 8 [Malloc 20] 4096) [4096] 3 4 4164 heap_used);
    [by vm_compute | by vm_compute | exact heap_single_wf | by vm_compute
    | by vm_compute | by vm_compute | by vm_compute | by vm_compute].
Defined.


Lemma call_keeps_other_blocks_witness :
  ∃ l' h',
    wf (P := lp64)
      (after (P := lp64) 8 [Malloc 20; Calloc 3 4; Free 4164] 4096) l' ∧
    4096 ∈ l' ∧
    hdrs (after (P := lp64) 8 [Malloc 20; Calloc 3 4; Free 4164] 4096)
      !! 4096 = Some h' ∧
    s_size h' = s_size (Header 20 false 4140) ∧
    (s_is_free (Header 20 false 4140) = false → s_is_free h' = false).
Proof.
  apply (call_keeps_other_blocks (P := lp64) 8 heap_used [4096; 4140]
           (Free 4164) NULL
           (after (P := lp64) 8 [Malloc 20; Calloc 3 4; Free 4164] 4096)
           4096 (Header 20 false 4140));
    [by vm_compute | by vm_compute | exact heap_used_wf
    | right; apply elem_of_cons; right; by left
    | by vm_compute | by left | by vm_compute | by vm_compute].
Defined.

Lemma get_free_block_first_fit_witness :
  ∃ r, get_free_block 8 heap_freed 20 = Ok r.
Proof.
  destruct (get_free_block_first_fit (P := lp64) 8 heap_freed [4096; 4140] 20)
    as (r & H & _); [exact heap_freed_wf | simpl; lia |]. by exists r.
Defined.

Lemma print_mem_list_well_formed_witness :
  ∃ bl, print_mem_list 8 heap_used = Ok bl ∧ bl.*1 = [4096; 4140].
Proof.
  destruct (print_mem_list_well_formed (P := lp64) 8 heap_used [4096; 4140])
    as (bl & H1 & H2 & _); [by vm_compute | exact heap_used_wf | simpl; lia |].
  by exists bl.
Defined.

Lemma malloc_then_free_restores_witness :
  ∃ st1 st2,
    malloc (P := lp64) 8 heap_used 16 = Ok (brk heap_used + 24, st1) ∧
    free (P := lp64) 8 st1 (brk heap_used + 24) = Ok st2 ∧
    brk st2 = brk heap_used.
Proof.
  destruct (malloc_then_free_restores (P := lp64) 8 heap_used [4096; 4140] 16)
    as (st1 & st2 & H1 & H2 & _ & _ & H3 & _);
    [by vm_compute | by vm_compute | exact heap_used_wf | simpl; lia
    | lia | by vm_compute | by vm_compute | by vm_compute |].
  by exists st1, st2.
Defined.

Lemma realloc_moves_block_witness :
  ∃ st', realloc (P := lp64) 8 heap_used 4120 40
         = Ok (brk heap_used + 24, st').
Proof.
  destruct (realloc_moves_block (P := lp64) 8 heap_used [4096; 4140] 4120 40
              (Header 20 false 4140))
    as (st' & n & H & _);
    [by vm_compute | by vm_compute | exact heap_used_wf | simpl; lia
    | apply elem_of_cons; by left
    | by vm_compute | by vm_compute | by vm_compute | by vm_compute
    | by vm_compute |].
  by exists st'.
Defined.

Lemma realloc_starved_by_reuse_witness :
  ∃ hb st',
    hdrs heap_freed !! 4096 = Some hb ∧ s_is_free hb = true ∧
    20 ≤ s_size hb ∧ 4096 ∈ [4096; 4140] ∧ 4096 ≠ 4164 - 24 ∧
    realloc (P := lp64) 8 heap_freed 4164 20 = Ok (NULL, st') ∧
    st' = set_hdrs (<[4096 := Header (s_size hb) false (s_next hb)]>
                      (hdrs heap_freed)) heap_freed ∧
    hdrs st' !! 4096 = Some (Header (s_size hb) false (s_next hb)) ∧
    hdrs st' !! (4164 - 24) = Some (Header 12 false NULL) ∧
    wf (P := lp64) st' [4096; 4140].
Proof.
  apply (realloc_starved_by_reuse (P := lp64) 8 heap_freed [4096; 4140]
           4164 20 (Header 12 false NULL) 4096);
    [by vm_compute | exact heap_freed_wf
    | apply elem_of_cons; right; by left
    | lia | by vm_compute | by vm_compute | by vm_compute | by vm_compute].
Defined.

Lemma malloc_appends_witness :
  ∃ st', malloc (P := lp64) 8 heap_used 16 = Ok (brk heap_used + 24, st').
Proof.
  destruct (malloc_appends (P := lp64) 8 heap_used [4096; 4140] 16)
    as (st' & H & _);
    [by vm_compute | by vm_compute | exact heap_used_wf | lia
    | by vm_compute | by vm_compute | by vm_compute |].
  by exists st'.
Defined.

Lemma call_returns_witness :
  ∃ r st', run_call (P := lp64) 8 heap_used (Realloc 4120 40) = Ok (r, st').
Proof.
  apply (call_returns (P := lp64) 8 heap_used [4096; 4140]);
    [by vm_compute | by vm_compute | exact heap_used_wf | simpl; lia |].
  split; [by vm_compute|]. right. apply elem_of_cons. by left.
Defined.

(** ** The guarantees at a reachable state *)

Lemma heap_used_handles :
  4120 ∈ ({[4164]} ∪ ({[4120]} ∪ ∅) : gset Z) ∧
  4164 ∈ ({[4164]} ∪ ({[4120]} ∪ ∅) : gset Z).
Proof. split; set_solver. Qed.

Lemma reachable_no_gap_witness :
  ∃ l, wf (P := lp64) heap_used l ∧ tight (P := lp64) heap_used l
                                       (brk heap_used).
Proof.
  destruct (reachable_no_gap (P := lp64) heap_used _
              ltac:(by vm_compute) ltac:(by vm_compute) heap_used_reachable)
    as (l & H1 & H2 & _).
  by exists l.
Defined.

Lemma free_of_tail_releases_witness :
  ∃ st', free (P := lp64) 8 heap_used 4164 = Ok st' ∧ brk st' = 4164 - 24.
Proof.
  destruct (free_of_tail_releases (P := lp64) heap_used _ 4164
              ltac:(by vm_compute) ltac:(by vm_compute) heap_used_reachable)
    as (l0 & st' & Hwf & Hf & H & _);
    [apply heap_used_handles | by vm_compute |].
  exists st'. split; [|exact H]. apply Hf.
  pose proof (wf_unique (P := lp64) _ _ _ Hwf heap_used_wf) as E.
  apply (f_equal length) in E. rewrite length_app in E. simpl in *. lia.
Defined.

Lemma reachable_handles_apart_witness :
  ∃ h1, hdrs heap_used !! (4120 - 24) = Some h1 ∧
        4120 + s_size h1 ≤ 4164 - 24.
Proof.
  destruct (reachable_handles_apart (P := lp64) heap_used _ 4120 4164
              ltac:(by vm_compute) ltac:(by vm_compute) heap_used_reachable)
    as (h1 & h2 & H1 & _ & _ & _ & _ & H2 & _);
    [apply heap_used_handles | apply heap_used_handles | lia |].
  by exists h1.
Defined.

Lemma reachable_block_list_witness :
  ∃ l, StronglySorted Z.lt l ∧ (4164 - 24) ∈ l.
Proof.
  destruct (reachable_block_list (P := lp64) heap_used _
              ltac:(by vm_compute) ltac:(by vm_compute) heap_used_reachable)
    as (l & _ & _ & H1 & _ & _ & _ & H2).
  exists l. split; [done|]. apply H2, heap_used_handles.
Defined.
